(** * Sketch recognition service: normalization, features, fallback and ensemble

    A shallow embedding of the Python sketch-recognition core of the AI service
    ([app/utils/image_utils.py], [app/core/recognition.py],
    [app/core/recognition_service.py], [app/core/ensemble_recognition_service.py]).

    Conventions of the embedding:
    - Python floats and numpy float arrays are modelled with exact rationals [Q];
      uint8 arrays hold integral values 0..255 stored as [Q] as well.
    - A 2-D single-channel image (numpy array of shape (H, W), PIL mode 'L') is a
      list of rows, [grid].  A model input of shape (1, H, W, 1) is the same grid.
    - Python exceptions are the constructors of [exn]; code that may raise
      returns [res A].
    - Library routines with no Python source in the repository (OpenCV, PIL
      resampling and drawing, image decoding, numpy's random generator) are the
      fields of the record [Lib]; every statement about code that calls them
      holds for every choice of these routines. *)

From Stdlib Require Import List String Ascii ZArith QArith Qround Lia Bool Sorted Permutation.
From Stdlib Require Import Lqa.
Import ListNotations.

Open Scope string_scope.
Open Scope Q_scope.

(* ------------------------------------------------------------------------- *)
(** ** Python exceptions and the result type *)

(** A raised Python exception: its class name and its message [str(e)]. *)
Inductive exn : Type :=
| PyExc (kind : string) (msg : string).

Definition ValueError (msg : string) : exn := PyExc "ValueError" msg.
Definition UnboundLocalError (msg : string) : exn := PyExc "UnboundLocalError" msg.
Definition AttributeError (msg : string) : exn := PyExc "AttributeError" msg.

(** [str(e)] *)
Definition exn_str (e : exn) : string :=
  match e with PyExc _ m => m end.

Inductive res (A : Type) : Type :=
| Ok (a : A)
| Err (e : exn).
Arguments Ok {A} a.
Arguments Err {A} e.

Definition bind {A B : Type} (m : res A) (k : A -> res B) : res B :=
  match m with
  | Ok a => k a
  | Err e => Err e
  end.

Notation "'let*' x ':=' m 'in' k" := (bind m (fun x => k))
  (at level 200, x name, m at level 100, k at level 200).

(* ------------------------------------------------------------------------- *)
(** ** numpy helpers on 2-D arrays *)

Definition grid := list (list Q).

(** [np.maximum] / [np.minimum] of two scalars. *)
Definition qltb (a b : Q) : bool := if Qlt_le_dec a b then true else false.
Definition qmax (a b : Q) : Q := if Qlt_le_dec a b then b else a.
Definition qmin (a b : Q) : Q := if Qlt_le_dec b a then b else a.

Definition elems (a : grid) : list Q := List.concat a.

(** [a.max()]: a reduction over a zero-size array raises ValueError. *)
Definition arr_max (a : grid) : res Q :=
  match elems a with
  | [] => Err (ValueError "zero-size array to reduction operation maximum which has no identity")
  | x :: xs => Ok (fold_left qmax xs x)
  end.

Definition arr_min (a : grid) : res Q :=
  match elems a with
  | [] => Err (ValueError "zero-size array to reduction operation minimum which has no identity")
  | x :: xs => Ok (fold_left qmin xs x)
  end.

(** [np.zeros_like(a)] *)
Definition zeros_like (a : grid) : grid := map (map (fun _ => 0)) a.

(** [np.zeros((h, w))] *)
Definition zeros (h w : nat) : grid := repeat (repeat 0 w) h.

(** [np.array(img)[y1:y2, x1:x2]]: Python slicing inside the bounds. *)
Definition py_slice {A : Type} (l : list A) (a b : nat) : list A :=
  firstn (b - a) (skipn a l).

Definition crop (a : grid) (x1 y1 x2 y2 : nat) : grid :=
  map (fun row => py_slice row x1 x2) (py_slice a y1 y2).

(** Python [int(x)] on a float: truncation toward zero. *)
Definition py_int (x : Q) : Z := if Qlt_le_dec x 0 then Qceiling x else Qfloor x.

(** numpy [astype(np.uint8)] of a float: truncation, then wrap-around modulo 256. *)
Definition to_uint8 (x : Q) : Q := inject_Z (Z.modulo (py_int x) 256).

(** [numpy.pi], the double closest to pi, as an exact rational. *)
Definition np_pi : Q := 884279719003555 # 281474976710656.

(* ------------------------------------------------------------------------- *)
(** ** Library routines without Python source in the repository *)

(** An OpenCV contour: its points [(x, y)] in pixel coordinates. *)
Definition contour := list (Z * Z).

Record Lib : Type := {
  (** [cv2.adaptiveThreshold(cv2.GaussianBlur(img, (5, 5), 0), 255,
      ADAPTIVE_THRESH_GAUSSIAN_C, THRESH_BINARY_INV, 11, 2)] on a uint8 image *)
  blur_adaptive_threshold_inv : grid -> grid;
  (** [cv2.findContours(img, RETR_EXTERNAL, CHAIN_APPROX_SIMPLE)[0]] *)
  find_contours : grid -> list contour;
  (** [cv2.arcLength(c, True)] *)
  arc_length : contour -> Q;
  (** [cv2.resize(img, (w, h), interpolation=INTER_AREA)], for [w, h > 0] *)
  cv_resize_area : grid -> nat -> nat -> grid;
  (** PIL [Image.resize((w, h), LANCZOS)] when the size changes *)
  pil_resample_lanczos : grid -> nat -> nat -> grid;
  (** PIL [ImageDraw.line([p, q], fill=0, width=w)] on a mode 'L' image *)
  draw_line : grid -> Q * Q -> Q * Q -> nat -> grid;
  (** [Image.open(io.BytesIO(base64.b64decode(s)))] (then in mode 'L');
      [None] when decoding raises *)
  decode_image : string -> option grid;
  (** PIL [Image.open(io.BytesIO(b))] of raw bytes, converted to mode 'L';
      [Err] with PIL's exception when the bytes are not an image *)
  open_image_bytes : string -> res grid;
  (** a sample of [np.random.random((1, 28, 28, 1))] *)
  random_image : grid;
  (** [np.random.dirichlet(np.ones(n) * 0.5)] after [np.random.seed] with the md5
      of the image statistics, for the image and [n] *)
  seeded_dirichlet : grid -> nat -> list Q
}.

(** [cv2.contourArea(c)]: the absolute shoelace area of the closed polygon. *)
Fixpoint shoelace (first : Z * Z) (pts : list (Z * Z)) : Z :=
  match pts with
  | [] => 0
  | [p] => fst p * snd first - fst first * snd p
  | p :: (q :: _) as rest => (fst p * snd q - fst q * snd p) + shoelace first rest
  end%Z.

Definition contour_area (c : contour) : Q :=
  match c with
  | [] => 0
  | p :: _ => inject_Z (Z.abs (shoelace p c)) / 2
  end.

(** [cv2.boundingRect(points)] = [(x, y, w, h)], [w = max x - min x + 1]. *)
Definition bounding_rect (c : contour) : Z * Z * Z * Z :=
  match c with
  | [] => (0, 0, 0, 0)%Z
  | p :: ps =>
      let xs := map fst ps in
      let ys := map snd ps in
      let minx := fold_left Z.min xs (fst p) in
      let maxx := fold_left Z.max xs (fst p) in
      let miny := fold_left Z.min ys (snd p) in
      let maxy := fold_left Z.max ys (snd p) in
      (minx, miny, (maxx - minx + 1), (maxy - miny + 1))%Z
  end.

(* ------------------------------------------------------------------------- *)
(** ** app/utils/image_utils.py *)

Module ImageUtils.

(** [normalize_image(img_array, target_range=(lo, hi))] (both definitions in
    the file have this body; the later one is the module's binding). *)
Definition normalize_image (img_array : grid) (lo hi : Q) : res grid :=
  let* mx := arr_max img_array in
  let* mn := arr_min img_array in
  if Qeq_bool mx mn then Ok (zeros_like img_array)
  else
    Ok (map (map (fun x => ((x - mn) / (mx - mn)) * (hi - lo) + lo)) img_array).

(** [s.split(',')[1]]: the text between the first and the second comma;
    [None] (an IndexError) when there is no comma. *)
Fixpoint after_comma (s : string) : option string :=
  match s with
  | EmptyString => None
  | String c rest =>
      if Ascii.eqb c ","%char then
        Some ((fix upto (t : string) : string :=
                 match t with
                 | EmptyString => EmptyString
                 | String d r => if Ascii.eqb d ","%char then EmptyString else String d (upto r)
                 end) rest)
      else after_comma rest
  end.

(** [base64_to_image(base64_str)] *)
Definition base64_to_image (L : Lib) (s : string) : res grid :=
  let* s :=
    if String.prefix "data:" s then
      match after_comma s with
      | Some r => Ok r
      | None => Err (PyExc "IndexError" "list index out of range")
      end
    else Ok s in
  match decode_image L s with
  | Some img => Ok img
  | None => Err (PyExc "binascii.Error" "Incorrect padding")
  end.

(** A stroke is a list of points [(x, y)]. *)
Definition point := (Q * Q)%type.
Definition stroke := list point.

(** [all_points] of [preprocess_stroke_data]: the points of the non-empty strokes. *)
Definition all_points (strokes : list stroke) : list point :=
  List.concat (filter (fun s => negb (Nat.eqb (List.length s) 0)) strokes).

(** The bounding box [(min_x, min_y, max_x, max_y)] of [np.array(all_points)]
    ([min(axis=0)], [max(axis=0)]); [None] when there is no point. *)
Definition points_bbox (pts : list point) : option (Q * Q * Q * Q) :=
  match pts with
  | [] => None
  | p :: ps =>
      Some (fold_left qmin (map fst ps) (fst p), fold_left qmin (map snd ps) (snd p),
            fold_left qmax (map fst ps) (fst p), fold_left qmax (map snd ps) (snd p))
  end.

(** [normalize_point] of [preprocess_stroke_data], with
    [width_range = max(max_x - min_x, 1e-8)] and likewise [height_range]. *)
Definition normalize_point (width height : nat) (bb : Q * Q * Q * Q) (p : point) : point :=
  let '(min_x, min_y, max_x, max_y) := bb in
  let width_range := qmax (max_x - min_x) (1 # 100000000) in
  let height_range := qmax (max_y - min_y) (1 # 100000000) in
  let w := inject_Z (Z.of_nat width) in
  let h := inject_Z (Z.of_nat height) in
  ((1 # 10) * w + (8 # 10) * w * (fst p - min_x) / width_range,
   (1 # 10) * h + (8 # 10) * h * (snd p - min_y) / height_range).

(** The drawing loop: consecutive normalized points of each stroke of length
    at least 2 are joined by [draw.line]. *)
Fixpoint draw_polyline (L : Lib) (img : grid) (pts : list point) (line_width : nat) : grid :=
  match pts with
  | p :: ((q :: _) as rest) => draw_polyline L (draw_line L img p q line_width) rest line_width
  | _ => img
  end.

Definition draw_strokes (L : Lib) (width height : nat) (bb : Q * Q * Q * Q)
    (strokes : list stroke) (line_width : nat) (img : grid) : grid :=
  fold_left
    (fun img s =>
       if Nat.ltb (List.length s) 2 then img
       else draw_polyline L img (map (normalize_point width height bb) s) line_width)
    strokes img.

(** [preprocess_stroke_data(strokes, target_size=(width, height), line_width, invert)] *)
Definition preprocess_stroke_data (L : Lib) (strokes : list stroke) (width height : nat)
    (line_width : nat) (invert : bool) : res grid :=
  (* Image.new('L', (width, height), color=255) *)
  let img := repeat (repeat 255 width) height in
  let finish (img_array : grid) :=
    let img_array := if invert then map (map (fun v => 255 - v)) img_array else img_array in
    normalize_image img_array 0 1 in
  match points_bbox (all_points strokes) with
  | None => finish img
  | Some bb => finish (draw_strokes L width height bb strokes line_width img)
  end.

(** [calculate_centroid(img_array)]: (y_center, x_center) of the pixels [< 240]. *)
Definition ink_positions (img : grid) : list (nat * nat) :=
  List.concat
    (map (fun '(r, row) =>
            map (fun '(c, _) => (r, c))
                (filter (fun '(_, v) => qltb v 240) (combine (seq 0 (List.length row)) row)))
         (combine (seq 0 (List.length img)) img)).

Definition q_of_nat (n : nat) : Q := inject_Z (Z.of_nat n).

Definition mean (l : list Q) : Q := fold_left Qplus l 0 / q_of_nat (List.length l).

Definition calculate_centroid (img : grid) : Q * Q :=
  match ink_positions img with
  | [] => (1 # 2, 1 # 2)
  | pos =>
      let h := q_of_nat (List.length img) in
      let w := q_of_nat (match img with [] => 0%nat | row :: _ => List.length row end) in
      (mean (map (fun p => q_of_nat (fst p)) pos) / h,
       mean (map (fun p => q_of_nat (snd p)) pos) / w)
  end.

(** [detect_shape_type(img_array)] on a uint8 image.  The [try]/[except] of the
    source only catches a failing OpenCV; the routines of [Lib] are total. *)
Definition largest_contour (c : contour) (cs : list contour) : contour :=
  fold_left (fun best c => if Qlt_le_dec (contour_area best) (contour_area c) then c else best) cs c.

Definition circularity_of (area perimeter : Q) : Q :=
  if Qeq_bool perimeter 0 then 0 else 4 * np_pi * area / (perimeter * perimeter).

Definition rectangularity_of (area : Q) (c : contour) : Q :=
  let '(_, _, w, h) := bounding_rect c in
  let rect_area := (w * h)%Z in
  if Z.eqb rect_area 0 then 0 else area / inject_Z rect_area.

Definition binarize_240 (img : grid) : grid :=
  map (map (fun v => if Qlt_le_dec v 240 then 255 else 0)) img.

Definition detect_shape_type (L : Lib) (img : grid) : string :=
  match find_contours L (binarize_240 img) with
  | [] => "no_shape"
  | c :: cs =>
      let largest := largest_contour c cs in
      let area := contour_area largest in
      if Qlt_le_dec area 10 then "no_shape"
      else
        let circularity := circularity_of area (arc_length L largest) in
        let rectangularity := rectangularity_of area largest in
        if Qlt_le_dec (7 # 10) circularity then "circular"
        else if Qlt_le_dec (7 # 10) rectangularity then "rectangular"
        else "irregular"
  end.

(** The features dictionary: the keys the fallback predictor reads, each
    [None] when absent. *)
Record features := mk_features {
  f_error : option string;
  f_shape_type : option string;
  f_coverage : option Q;
  f_centroid : option (Q * Q)
}.

Definition no_features : features := mk_features None None None None.
Definition error_features (msg : string) : features := mk_features (Some msg) None None None.

(** [np.count_nonzero(img_array < 240) / (H * W)] *)
Definition coverage (img : grid) : Q :=
  q_of_nat (List.length (ink_positions img)) /
  (q_of_nat (List.length img) * q_of_nat (match img with [] => 0%nat | row :: _ => List.length row end)).

(** [analyze_image_content(image)] for a 2-D numpy array: it is first turned
    into a uint8 PIL image, scaled by 255 when its maximum is at most 1. *)
Definition analyze_image_content (L : Lib) (image : grid) : res features :=
  let* mx := arr_max image in
  let img := if Qle_bool mx 1 then map (map (fun v => to_uint8 (v * 255))) image
             else map (map to_uint8) image in
  Ok (mk_features None (Some (detect_shape_type L img)) (Some (coverage img))
                  (Some (calculate_centroid img))).

(** Inputs of [enhanced_preprocess_image]: a PIL image (mode 'L') or a 2-D numpy
    array with its dtype. *)
Inductive dtype : Type := UInt8 | Float32 | Float64.

Inductive image_input : Type :=
| PILImage (px : grid)
| NDArray (dt : dtype) (a : grid).

Definition grid_width (a : grid) : nat :=
  match a with [] => 0%nat | row :: _ => List.length row end.

(** [padded[paste_y:paste_y+h, paste_x:paste_x+w] = blk] *)
Definition paste (canvas blk : grid) (paste_x paste_y : nat) : grid :=
  map (fun '(r, row) =>
         map (fun '(c, v) =>
                if (Nat.leb paste_y r && Nat.ltb r (paste_y + List.length blk) &&
                    Nat.leb paste_x c && Nat.ltb c (paste_x + grid_width blk))%bool
                then nth (c - paste_x) (nth (r - paste_y) blk []) 0
                else v)
             (combine (seq 0 (List.length row)) row))
      (combine (seq 0 (List.length canvas)) canvas).

Definition unbound_img_uint8 : exn :=
  UnboundLocalError "cannot access local variable 'img_uint8' where it is not associated with a value".

(** Step 1 of [enhanced_preprocess_image]: the float image and its binarization.
    On a uniform image the source executes [binary = img_uint8] in the branch
    where [img_uint8] was never assigned. *)
Definition binarize_step (L : Lib) (image : image_input) : res grid :=
  let '(dt, img_array) :=
    match image with
    | PILImage px => (UInt8, px)          (* np.array(image) of a mode 'L' image *)
    | NDArray dt a => (dt, a)             (* image.copy() *)
    end in
  let img_array :=
    match dt with
    | UInt8 => map (map (fun v => v / 255)) img_array
    | _ => img_array
    end in
  let* mx := arr_max img_array in
  let* mn := arr_min img_array in
  if Qlt_le_dec mn mx then
    let img_uint8 :=
      if Qle_bool mx 1 then map (map (fun v => to_uint8 (v * 255))) img_array
      else map (map to_uint8) img_array in
    Ok (blur_adaptive_threshold_inv L img_uint8)
  else Err unbound_img_uint8.

(** [enhanced_preprocess_image(image, target_size=(ts, ts))] without the debug
    record.  The model takes a square target, as every caller passes the default
    (28, 28); the result is the [ts] x [ts] grid of the (1, ts, ts, 1) tensor. *)
Definition enhanced_preprocess_image (L : Lib) (image : image_input) (ts : nat) : res grid :=
  let* binary := binarize_step L image in
  let contours :=
    match find_contours L binary with
    | [] => find_contours L (map (map (fun v => 255 - v)) binary)
    | cs => cs
    end in
  match contours with
  | [] => Ok (zeros ts ts)
  | _ :: _ =>
      let bh := Z.of_nat (List.length binary) in
      let bw := Z.of_nat (grid_width binary) in
      let '(x, y, w, h) := bounding_rect (List.concat contours) in
      let '(x, y, w, h) :=
        if (Z.eqb w 0 || Z.eqb h 0)%bool then (0, 0, bw, bh)%Z else (x, y, w, h) in
      let padding_x := py_int (inject_Z w * (2 # 10)) in
      let padding_y := py_int (inject_Z h * (2 # 10)) in
      let x1 := Z.max 0 (x - padding_x) in
      let y1 := Z.max 0 (y - padding_y) in
      let x2 := Z.min bw (x + w + padding_x) in
      let y2 := Z.min bh (y + h + padding_y) in
      let cropped := crop binary (Z.to_nat x1) (Z.to_nat y1) (Z.to_nat x2) (Z.to_nat y2) in
      let ch := List.length cropped in
      let cw := grid_width cropped in
      let* padded :=
        if (Nat.ltb 0 ch && Nat.ltb 0 cw)%bool then
          let aspect := q_of_nat cw / q_of_nat ch in
          let '(new_width, new_height) :=
            if Qlt_le_dec 1 aspect then (ts, Z.to_nat (py_int (q_of_nat ts / aspect)))
            else (Z.to_nat (py_int (q_of_nat ts * aspect)), ts) in
          if (Nat.eqb new_width 0 || Nat.eqb new_height 0)%bool then
            Err (PyExc "cv2.error" "(-215:Assertion failed) !dsize.empty() in function 'resize'")
          else
            let resized := cv_resize_area L cropped new_width new_height in
            Ok (paste (zeros ts ts) resized ((ts - new_width) / 2) ((ts - new_height) / 2))
        else Ok (zeros ts ts) in
      Ok (map (map (fun v => v / 255)) padded)
  end.

End ImageUtils.

(* ------------------------------------------------------------------------- *)
(** ** Shared helpers: Python sorting and label clean-up *)

(** A prediction candidate [(class, confidence)]. *)
Definition pred := (string * Q)%type.

(** [sorted(l, key=k, reverse=True)]: Python's sort is stable, and [reverse=True]
    keeps equal keys in their input order; [x] goes before the first element
    with a strictly smaller key. *)
Fixpoint insert_desc {A : Type} (k : A -> Q) (x : A) (l : list A) : list A :=
  match l with
  | [] => [x]
  | y :: ys => if qltb (k y) (k x) then x :: l else y :: insert_desc k x ys
  end.

Definition sort_desc {A : Type} (k : A -> Q) (l : list A) : list A :=
  fold_left (fun acc x => insert_desc k x acc) l [].

(** [np.argsort(v)], ascending.  Equal values are kept in index order (numpy's
    default kind does not promise an order between equal values; no statement
    below depends on it). *)
Fixpoint insert_asc (k : nat -> Q) (x : nat) (l : list nat) : list nat :=
  match l with
  | [] => [x]
  | y :: ys => if qltb (k x) (k y) then x :: l else y :: insert_asc k x ys
  end.

Definition argsort (v : list Q) : list nat :=
  fold_left (fun acc i => insert_asc (fun j => nth j v 0) i acc) (seq 0 (List.length v)) [].

(** [class_name.split('_')[0]] (equal to [class_name] when it has no '_'). *)
Fixpoint split_underscore_0 (s : string) : string :=
  match s with
  | EmptyString => EmptyString
  | String c rest =>
      if Ascii.eqb c "_"%char then EmptyString else String c (split_underscore_0 rest)
  end.

Definition sum_conf (l : list pred) : Q := fold_left (fun acc p => acc + snd p) l 0.

(** The response dictionary of the recognition services. *)
Record response := mk_response {
  success : bool;
  error : option string;
  top_predictions : list pred
}.

(* ------------------------------------------------------------------------- *)
(** ** app/core/recognition.py: SketchRecognitionService *)

Module Recognition.
Import ImageUtils.

(** [_predict_based_on_features(features)]: the fallback predictor. *)
Definition predict_based_on_features (features : features) : list pred :=
  match f_error features with
  | Some _ => [("error", 8 # 10); ("unknown", 2 # 10)]
  | None =>
  let shape_type := match f_shape_type features with Some s => s | None => "irregular" end in
  let coverage := match f_coverage features with Some c => c | None => 0 end in
  let '(centroid_y, centroid_x) :=
    match f_centroid features with Some c => c | None => (1 # 2, 1 # 2) end in
  if String.eqb shape_type "circular" then
    if qltb coverage (2 # 10) then
      [("circle", 65 # 100); ("clock", 2 # 10); ("face", 1 # 10); ("apple", 3 # 100); ("fish", 2 # 100)]
    else if qltb coverage (4 # 10) then
      [("face", 45 # 100); ("apple", 25 # 100); ("clock", 15 # 100); ("fish", 1 # 10); ("star", 5 # 100)]
    else
      [("apple", 5 # 10); ("face", 2 # 10); ("clock", 15 # 100); ("star", 1 # 10); ("fish", 5 # 100)]
  else if String.eqb shape_type "rectangular" then
    if qltb centroid_y (4 # 10) then
      [("house", 6 # 10); ("chair", 2 # 10); ("car", 1 # 10); ("airplane", 5 # 100); ("clock", 5 # 100)]
    else if qltb coverage (3 # 10) then
      [("house", 4 # 10); ("chair", 3 # 10); ("car", 15 # 100); ("clock", 1 # 10); ("bicycle", 5 # 100)]
    else
      [("chair", 35 # 100); ("house", 3 # 10); ("car", 2 # 10); ("clock", 1 # 10); ("bicycle", 5 # 100)]
  else
    if qltb coverage (15 # 100) then
      if qltb (6 # 10) centroid_y then
        [("tree", 4 # 10); ("umbrella", 3 # 10); ("bicycle", 15 # 100); ("dog", 1 # 10); ("chair", 5 # 100)]
      else
        [("cat", 35 # 100); ("star", 25 # 100); ("dog", 2 # 10); ("umbrella", 15 # 100); ("fish", 5 # 100)]
    else if qltb coverage (3 # 10) then
      if qltb centroid_x (4 # 10) then
        [("car", 4 # 10); ("bicycle", 25 # 100); ("dog", 2 # 10); ("cat", 1 # 10); ("fish", 5 # 100)]
      else
        [("airplane", 3 # 10); ("fish", 25 # 100); ("star", 2 # 10); ("bicycle", 15 # 100); ("umbrella", 1 # 10)]
    else
      [("tree", 3 # 10); ("dog", 25 # 100); ("cat", 2 # 10); ("fish", 15 # 100); ("star", 1 # 10)]
  end.

(** The state the [predict] method reads. [model] is [None] for the dummy
    model; a loaded model maps the (1, H, W, 1) input to its score row
    [predictions[0]], or raises. *)
Record service := mk_service {
  model : option (grid -> res (list Q));
  class_names : list string;
  top_k : nat
}.

(** PIL [image.resize((w, h), LANCZOS)]: PIL returns a copy when the size is
    unchanged. *)
Definition pil_resize (L : Lib) (g : grid) (w h : nat) : grid :=
  if (Nat.eqb (grid_width g) w && Nat.eqb (List.length g) h)%bool then g
  else pil_resample_lanczos L g w h.

(** [_basic_preprocess_image(image)] for a 2-D array or a mode 'L' image. *)
Definition basic_preprocess_image (L : Lib) (image : image_input) : res grid :=
  let* image_2d :=
    match image with
    | NDArray _ a =>
        if (Nat.eqb (List.length a) 28 && Nat.eqb (grid_width a) 28)%bool then Ok a
        else
          let* mx := arr_max a in
          let u8 := if Qle_bool mx 1 then map (map (fun v => to_uint8 (v * 255))) a
                    else map (map to_uint8) a in
          Ok (pil_resize L u8 28 28)
    | PILImage px => Ok (pil_resize L px 28 28)
    end in
  let* mx := arr_max image_2d in
  let image_2d := if qltb 1 mx then map (map (fun v => v / 255)) image_2d else image_2d in
  if qltb (1 # 2) (mean (elems image_2d)) then Ok (map (map (fun v => 1 - v)) image_2d)
  else Ok image_2d.

(** [preprocess_image(image)]: the enhanced pipeline, and the basic one when
    the enhanced one raises. *)
Definition preprocess_image (L : Lib) (image : image_input) : res grid :=
  match enhanced_preprocess_image L image 28 with
  | Ok g => Ok g
  | Err _ => basic_preprocess_image L image
  end.

(** The canvas dictionary: ['image_data'] (base64), ['strokes'], or neither. *)
Inductive canvas : Type :=
| CanvasImage (image_data : string)
| CanvasStrokes (strokes : list stroke)
| CanvasEmpty.

(** [preprocess_canvas_data(canvas_data)]: never raises; on an error it
    returns a random array and [{'error': str(e)}]. *)
Definition preprocess_canvas_data (L : Lib) (c : canvas) : grid * features :=
  match c with
  | CanvasImage s =>
      match base64_to_image L s with
      | Err e => (random_image L, error_features (exn_str e))
      | Ok img =>
          match preprocess_image L (PILImage img) with
          | Err e => (random_image L, error_features (exn_str e))
          | Ok pre =>
              match analyze_image_content L pre with
              | Err e => (random_image L, error_features (exn_str e))
              | Ok f => (pre, f)
              end
          end
      end
  | CanvasStrokes strokes =>
      let formatted := filter (fun s => negb (Nat.eqb (List.length s) 0)) strokes in
      match preprocess_stroke_data L formatted 28 28 2 true with
      | Err e => (random_image L, error_features (exn_str e))
      | Ok img_array =>
          match analyze_image_content L img_array with
          | Err e => (random_image L, error_features (exn_str e))
          | Ok f => (img_array, f)
          end
      end
  | CanvasEmpty => (random_image L, error_features "No valid input data")
  end.

(** The inputs [predict] dispatches on: a (1, H, W, 1) array, another 2-D
    array, a PIL image, a canvas dictionary, or anything else. *)
Inductive pyinput : Type :=
| InTensor (t : grid)
| InArray (dt : dtype) (a : grid)
| InPIL (px : grid)
| InCanvas (c : canvas)
| InOther.

(** The first block of [predict]: [processed_input] ([None] when the input
    matched no branch) and [features]. *)
Definition predict_inputs (L : Lib) (input : pyinput) : res (option grid * features) :=
  match input with
  | InTensor t =>
      let* f := analyze_image_content L t in Ok (Some t, f)
  | InArray dt a =>
      let* p := preprocess_image L (NDArray dt a) in
      let* f := analyze_image_content L p in Ok (Some p, f)
  | InPIL px =>
      let* p := preprocess_image L (PILImage px) in
      let* f := analyze_image_content L p in Ok (Some p, f)
  | InCanvas c => let '(p, f) := preprocess_canvas_data L c in Ok (Some p, f)
  | InOther => Ok (None, no_features)
  end.

(** The model branch: top-5 indices, in-range ones kept, label suffix removed. *)
Definition model_results (st : service) (predictions : list Q) : list pred :=
  flat_map (fun i =>
              if Nat.ltb i (List.length (class_names st))
              then [(split_underscore_0 (nth i (class_names st) ""), nth i predictions 0)]
              else [])
           (firstn 5 (rev (argsort predictions))).

(** The [try] around the model: [None] when there is no model, when it raises
    (also on a missing or empty input), or when no result was kept. *)
Definition model_step (st : service) (processed : option grid) : option (list pred) :=
  match model st, processed with
  | Some m, Some t =>
      match arr_max t with
      | Err _ => None
      | Ok _ =>
          match m t with
          | Err _ => None
          | Ok predictions =>
              match model_results st predictions with
              | [] => None
              | rs => Some rs
              end
          end
      end
  | _, _ => None
  end.

(** Lines 463-502: fallback predictions, padding to [top_k], sort, cut to
    [top_k] and renormalization. *)
Definition fallback_tail (st : service) (features : features) : list pred :=
  let predictions :=
    match predict_based_on_features features with
    | [] => [("unknown", 75 # 100); ("drawing", 25 # 100)]
    | ps => ps
    end in
  let predictions :=
    if Nat.ltb (List.length predictions) (top_k st) then
      let remaining :=
        filter (fun c => negb (existsb (String.eqb c) (map fst predictions))) (class_names st) in
      app predictions (map (fun c => (split_underscore_0 c, 1 # 100))
                         (firstn (top_k st - List.length predictions) remaining))
    else predictions in
  let predictions := firstn (top_k st) (sort_desc snd predictions) in
  let total := sum_conf predictions in
  if qltb 0 total then map (fun p => (fst p, snd p / total)) predictions else predictions.

(** [predict(input_data)]. *)
Definition predict (L : Lib) (st : service) (input : pyinput) : response :=
  match predict_inputs L input with
  | Err e => mk_response false (Some (exn_str e)) [("error", 1)]
  | Ok (processed, features) =>
      match model_step st processed with
      | Some rs => mk_response true None rs
      | None => mk_response true None (fallback_tail st features)
      end
  end.

End Recognition.

(* ------------------------------------------------------------------------- *)
(** ** recognize_sketch: the end-to-end wrapper shared by the two services *)

(** Python's [round(x, 2)]: to the nearest hundredth, ties to even. *)
Definition py_round2 (x : Q) : Q :=
  let y := x * 100 in
  let fl := Qfloor y in
  let frac := y - inject_Z fl in
  let r := if qltb frac (1 # 2) then fl
           else if qltb (1 # 2) frac then (fl + 1)%Z
           else if Z.even fl then fl else (fl + 1)%Z in
  inject_Z r / 100.

Section RecognizeSketch.
(** The raw input type, and the service's [self.preprocess_image] and
    [self.predict] methods. *)
Variable raw : Type.
Variable preprocess_image : raw -> res grid.
Variable predict : grid -> res (list pred).

(** [recognize_sketch(image_data)] of [recognition_service.py] (lines 376-442)
    and of [ensemble_recognition_service.py] (lines 350-410), which have the
    same body; the measured [inference_time] is left out. Any [Exception]
    raised inside the [try] is caught. *)
Definition recognize_sketch (x : raw) : response :=
  match (let* processed := preprocess_image x in predict processed) with
  | Ok predictions =>
      mk_response true None (map (fun p => (fst p, py_round2 (snd p * 100))) predictions)
  | Err e => mk_response false (Some (exn_str e)) [("error", 100)]
  end.
End RecognizeSketch.

(* ------------------------------------------------------------------------- *)
(** ** app/core/recognition_service.py: SketchRecognitionService *)

Module RecognitionServicePy.
Import ImageUtils.

(** The [image_data] values [preprocess_image] dispatches on: a string (base64,
    possibly with a data URI prefix), raw bytes, a PIL image, or a value of
    another type (named by its type). *)
Inductive raw_input : Type :=
| RawStr (s : string)
| RawBytes (b : string)
| RawPIL (px : grid)
| RawOther (type_name : string).

(** [re.sub(r'^data:image/[^;]+;base64,', '', s)] applied when
    [s.startswith('data:image')]. *)
Fixpoint drop_media_type (s : string) (seen : bool) : option string :=
  match s with
  | EmptyString => None
  | String c rest =>
      if Ascii.eqb c ";"%char then
        if seen && String.prefix "base64," rest then
          Some (substring 7 (String.length rest - 7) rest)
        else None
      else drop_media_type rest true
  end.

Definition strip_data_uri (s : string) : string :=
  if String.prefix "data:image/" s then
    match drop_media_type (substring 11 (String.length s - 11) s) false with
    | Some r => r
    | None => s
    end
  else s.

(** [preprocess_image(image_data)] (lines 191-262; the ensemble service's
    [preprocess_image], lines 150-211, has the same body). *)
Definition preprocess_image (L : Lib) (x : raw_input) : res grid :=
  let* image :=
    match x with
    | RawStr s =>
        match decode_image L (strip_data_uri s) with
        | Some img => Ok img
        | None => Err (ValueError "Invalid base64 image data")
        end
    | RawBytes b => open_image_bytes L b
    | RawPIL px => Ok px
    | RawOther t => Err (ValueError ("Unsupported image data type: " ++ t))
    end in
  let img_array := Recognition.pil_resize L image 28 28 in
  let img_array := map (map (fun v => v / 255)) img_array in
  if qltb (1 # 2) (mean (elems img_array)) then Ok (map (map (fun v => 1 - v)) img_array)
  else Ok img_array.

Record service := mk_service {
  model : option (grid -> res (list Q));
  class_names : list string;
  model_loaded : bool
}.

(** [_predict_fallback(processed_image)]: the seeded Dirichlet draw, sorted,
    top 10. *)
Definition predict_fallback (L : Lib) (st : service) (img : grid) : list pred :=
  let confs := seeded_dirichlet L img (List.length (class_names st)) in
  firstn 10 (sort_desc snd (combine (class_names st) confs)).

(** The model branch: top-10 indices, in-range ones kept. *)
Definition model_results (st : service) (predictions : list Q) : list pred :=
  flat_map (fun i =>
              if Nat.ltb i (List.length (class_names st))
              then [(nth i (class_names st) "", nth i predictions 0)]
              else [])
           (firstn 10 (rev (argsort predictions))).

(** [predict(processed_image)]; the debug line at its top reads
    [processed_image.min()], which raises on an empty array. *)
Definition predict (L : Lib) (st : service) (img : grid) : res (list pred) :=
  let* _ := arr_min img in
  match (if model_loaded st then model st else None) with
  | None => Ok (predict_fallback L st img)
  | Some m =>
      match m img with
      | Err _ => Ok (predict_fallback L st img)
      | Ok predictions => Ok (model_results st predictions)
      end
  end.

Definition recognize (L : Lib) (st : service) (x : raw_input) : response :=
  recognize_sketch raw_input (preprocess_image L) (predict L st) x.

End RecognitionServicePy.

(* ------------------------------------------------------------------------- *)
(** ** app/core/ensemble_recognition_service.py *)

Module Ensemble.

(** A Python dict as an association list in insertion order: assigning an
    existing key keeps its position. *)
Definition dict_get {K V : Type} (eqk : K -> K -> bool) (k : K) (d : list (K * V)) : option V :=
  match find (fun kv => eqk k (fst kv)) d with
  | Some kv => Some (snd kv)
  | None => None
  end.

Definition dict_set {K V : Type} (eqk : K -> K -> bool) (k : K) (v : V) (d : list (K * V))
  : list (K * V) :=
  if existsb (fun kv => eqk k (fst kv)) d
  then map (fun kv => if eqk k (fst kv) then (fst kv, v) else kv) d
  else app d [(k, v)].

Definition key_eqb (a b : string * string) : bool :=
  (String.eqb (fst a) (fst b) && String.eqb (snd a) (snd b))%bool.

Record service := mk_service {
  (** the keys of [self.models], in load order ('specialized' before 'general') *)
  models : list string;
  (** [self.metadata]: model name to its ['class_names'] *)
  metadata : list (string * list string);
  model_loaded : bool
}.

Definition class_names_of (st : service) (m : string) : list string :=
  match dict_get String.eqb m (metadata st) with Some l => l | None => [] end.

(** [_setup_category_mapping()]: [self.category_model_map]. *)
Definition category_model_map (st : service) : list (string * string) :=
  let spec := class_names_of st "specialized" in
  let gen := class_names_of st "general" in
  let d := fold_left (fun d c => dict_set String.eqb c "specialized" d) spec [] in
  fold_left (fun d c => if existsb (String.eqb c) spec then d else dict_set String.eqb c "general" d)
            gen d.

(** [_get_predictions_for_model(model_name, processed_image)]; [outputs m] is
    the score row [model.predict(...)[0]] of model [m], or the exception it
    raised. *)
Definition get_predictions_for_model (st : service) (outputs : string -> res (list Q))
    (m : string) : list pred :=
  if negb (existsb (String.eqb m) (models st)) then []
  else
    match outputs m with
    | Err _ => []
    | Ok predictions =>
        let names := class_names_of st m in
        flat_map (fun i =>
                    if Nat.ltb i (List.length names)
                    then [(nth i names "", nth i predictions 0)] else [])
                 (firstn 10 (rev (argsort predictions)))
    end.

(** [all_predictions]: keyed by (model_name, class_name). *)
Definition all_predictions (st : service) (results : string -> list pred)
  : list ((string * string) * Q) :=
  fold_left (fun d m =>
               fold_left (fun d p => dict_set key_eqb (m, fst p) (snd p) d) (results m) d)
            (models st) [].

(** The routing loop that builds [combined_predictions]. *)
Definition combine_step (cmap : list (string * string)) (combined : list (string * Q))
    (entry : (string * string) * Q) : list (string * Q) :=
  let '((model_name, class_name), confidence) := entry in
  match dict_get String.eqb class_name cmap with
  | Some preferred_model =>
      if (String.eqb model_name preferred_model ||
          negb (existsb (fun kv => String.eqb class_name (fst kv)) combined))%bool
      then dict_set String.eqb class_name confidence combined
      else if String.eqb model_name preferred_model
      then dict_set String.eqb class_name confidence combined
      else combined
  | None =>
      match dict_get String.eqb class_name combined with
      | None => dict_set String.eqb class_name confidence combined
      | Some old =>
          if qltb old confidence then dict_set String.eqb class_name confidence combined
          else combined
      end
  end.

Definition combined_predictions (st : service) (results : string -> list pred)
  : list (string * Q) :=
  fold_left (combine_step (category_model_map st)) (all_predictions st results) [].

(** [list(set)] of the class names of all metadata, first occurrence kept
    (Python's set order is arbitrary; no statement depends on it). *)
Definition dedup (l : list string) : list string :=
  fold_left (fun acc c => if existsb (String.eqb c) acc then acc else app acc [c]) l [].

Definition default_classes : list string :=
  ["airplane"; "apple"; "bicycle"; "car"; "cat"; "chair"; "clock"; "dog"; "face";
   "fish"; "house"; "star"; "tree"; "umbrella"].

(** [_predict_fallback(processed_image)] *)
Definition predict_fallback (L : Lib) (st : service) (img : grid) : list pred :=
  let names := dedup (flat_map snd (metadata st)) in
  let names := match names with [] => default_classes | _ => names end in
  let confs := seeded_dirichlet L img (List.length names) in
  firstn 10 (sort_desc snd (combine names confs)).

(** [predict(processed_image)]: the ensemble branch cannot raise on these data,
    so its [except] is not reached. *)
Definition predict (L : Lib) (st : service) (outputs : string -> grid -> res (list Q))
    (img : grid) : list pred :=
  if (negb (model_loaded st) || Nat.eqb (List.length (models st)) 0)%bool
  then predict_fallback L st img
  else
    let results := get_predictions_for_model st (fun m => outputs m img) in
    firstn 10 (sort_desc snd (combined_predictions st results)).

Definition recognize (L : Lib) (st : service) (outputs : string -> grid -> res (list Q))
    (x : RecognitionServicePy.raw_input) : response :=
  recognize_sketch RecognitionServicePy.raw_input (RecognitionServicePy.preprocess_image L)
                   (fun img => Ok (predict L st outputs img)) x.

End Ensemble.

(* ------------------------------------------------------------------------- *)
(** ** A sample [Lib] for running the definitions on concrete inputs *)

(** Placeholder library routines: identity filters and resizes, no contour
    found, failing decoders, an empty random sample and an empty Dirichlet
    draw.  Only paths that do not depend on these routines' results are run
    with it. *)
Definition stub_lib : Lib := {|
  blur_adaptive_threshold_inv := fun g => g;
  find_contours := fun _ => [];
  arc_length := fun _ => 0;
  cv_resize_area := fun g _ _ => g;
  pil_resample_lanczos := fun g _ _ => g;
  draw_line := fun g _ _ _ => g;
  decode_image := fun _ => None;
  open_image_bytes := fun _ => Err (ValueError "cannot identify image file");
  random_image := [];
  seeded_dirichlet := fun _ _ => []
|}.

(** A 28 x 28 all-white (255) grayscale raster. *)
Definition white28 : grid := repeat (repeat 255 28) 28.

(** A loaded model of recognition_service.py scoring "cat" 0.7 and "dog" 0.3. *)
Definition softmax_service : RecognitionServicePy.service :=
  RecognitionServicePy.mk_service (Some (fun _ => Ok [7 # 10; 3 # 10])) ["cat"; "dog"] true.

(** An ensemble with a specialized model over eleven classes ("s0" to "s9" and
    "apple") and a general model over "apple" and "dog"; the specialized
    model's scores are a parameter, the general model scores 0.9 and 0.1. *)
Definition ens_specialized_names : list string :=
  ["s0"; "s1"; "s2"; "s3"; "s4"; "s5"; "s6"; "s7"; "s8"; "s9"; "apple"].

Definition ens_service : Ensemble.service :=
  Ensemble.mk_service ["specialized"; "general"]
    [("specialized", ens_specialized_names); ("general", ["apple"; "dog"])] true.

Definition ens_outputs (specialized_scores : list Q) : string -> grid -> res (list Q) :=
  fun m _ => if String.eqb m "specialized" then Ok specialized_scores else Ok [9 # 10; 1 # 10].

(** Specialized scores 0.20, 0.19, ..., 0.11 for "s0" to "s9", and 0.5 for "apple". *)
Definition ens_high_apple : list Q :=
  [20 # 100; 19 # 100; 18 # 100; 17 # 100; 16 # 100; 15 # 100; 14 # 100; 13 # 100;
   12 # 100; 11 # 100; 5 # 10].

(* ========================================================================= *)
(** * Properties *)

Import ImageUtils.

(** All elements of a list are equal (as rationals). *)
Definition all_equal (l : list Q) : Prop := forall x y, In x l -> In y l -> x == y.

(* ------------------------------------------------------------------------- *)
(** ** numpy reductions *)

Lemma fold_qmax_spec (xs : list Q) (x : Q) :
  In (fold_left qmax xs x) (x :: xs) /\ (forall y, In y (x :: xs) -> y <= fold_left qmax xs x).
Proof.
  revert x; induction xs as [|a xs IH]; intros x; simpl.
  - split; [now left | intros y [<-|[]]; apply Qle_refl].
  - destruct (IH (qmax x a)) as [Hin Hle].
    assert (Hx : x <= qmax x a /\ a <= qmax x a).
    { unfold qmax; destruct (Qlt_le_dec x a); split; auto using Qle_refl, Qlt_le_weak. }
    split.
    + destruct Hin as [Heq|Hin]; [|now right; right].
      rewrite <- Heq; unfold qmax; destruct (Qlt_le_dec x a); [right; left|left]; reflexivity.
    + intros y [<-|[<-|Hy]].
      * eapply Qle_trans; [apply Hx|apply Hle; now left].
      * eapply Qle_trans; [apply Hx|apply Hle; now left].
      * apply Hle; now right.
Qed.

Lemma fold_qmin_spec (xs : list Q) (x : Q) :
  In (fold_left qmin xs x) (x :: xs) /\ (forall y, In y (x :: xs) -> fold_left qmin xs x <= y).
Proof.
  revert x; induction xs as [|a xs IH]; intros x; simpl.
  - split; [now left | intros y [<-|[]]; apply Qle_refl].
  - destruct (IH (qmin x a)) as [Hin Hle].
    assert (Hx : qmin x a <= x /\ qmin x a <= a).
    { unfold qmin; destruct (Qlt_le_dec a x); split; auto using Qle_refl, Qlt_le_weak. }
    split.
    + destruct Hin as [Heq|Hin]; [|now right; right].
      rewrite <- Heq; unfold qmin; destruct (Qlt_le_dec a x); [right; left|left]; reflexivity.
    + intros y [<-|[<-|Hy]].
      * eapply Qle_trans; [apply Hle; now left|apply Hx].
      * eapply Qle_trans; [apply Hle; now left|apply Hx].
      * apply Hle; now right.
Qed.

Lemma arr_max_spec (a : grid) (m : Q) :
  arr_max a = Ok m -> In m (elems a) /\ forall y, In y (elems a) -> y <= m.
Proof.
  unfold arr_max; destruct (elems a) as [|x xs]; intros H; [discriminate|].
  injection H as <-; apply fold_qmax_spec.
Qed.

Lemma arr_min_spec (a : grid) (m : Q) :
  arr_min a = Ok m -> In m (elems a) /\ forall y, In y (elems a) -> m <= y.
Proof.
  unfold arr_min; destruct (elems a) as [|x xs]; intros H; [discriminate|].
  injection H as <-; apply fold_qmin_spec.
Qed.

Lemma arr_max_ok (a : grid) : elems a <> [] -> exists m, arr_max a = Ok m.
Proof. unfold arr_max; destruct (elems a); [congruence|eauto]. Qed.

Lemma arr_min_ok (a : grid) : elems a <> [] -> exists m, arr_min a = Ok m.
Proof. unfold arr_min; destruct (elems a); [congruence|eauto]. Qed.

Lemma elems_map (f : Q -> Q) (a : grid) : elems (map (map f) a) = map f (elems a).
Proof.
  unfold elems; induction a as [|r a IH]; simpl; [reflexivity|].
  now rewrite map_app, IH.
Qed.

Lemma shape_map (f : Q -> Q) (a : grid) :
  map (@List.length Q) (map (map f) a) = map (@List.length Q) a.
Proof. induction a; simpl; [reflexivity|]; now rewrite length_map, IHa. Qed.

(** The min-max scaling of a value between [mn] and [mx] lies in [0, 1]. *)
Lemma scale_in_unit (x mn mx : Q) :
  mn <= x -> x <= mx -> mn < mx ->
  0 <= (x - mn) / (mx - mn) * (1 - 0) + 0 <= 1.
Proof.
  intros H1 H2 H3.
  assert (Hd : 0 < mx - mn) by (apply Qlt_minus_iff in H3; exact H3).
  setoid_replace ((x - mn) / (mx - mn) * (1 - 0) + 0) with ((x - mn) / (mx - mn)) by ring.
  split.
  - apply Qle_shift_div_l; [exact Hd|].
    setoid_replace (0 * (mx - mn)) with 0 by ring.
    apply Qle_minus_iff in H1; exact H1.
  - apply Qle_shift_div_r; [exact Hd|].
    setoid_replace (1 * (mx - mn)) with (mx - mn) by ring.
    apply Qplus_le_l with (z := mn); ring_simplify; exact H2.
Qed.

Lemma normalize_image_cases (a : grid) (Hne : elems a <> []) :
  exists mx mn, arr_max a = Ok mx /\ arr_min a = Ok mn /\
    normalize_image a 0 1 =
      (if Qeq_bool mx mn then Ok (zeros_like a)
       else Ok (map (map (fun x => ((x - mn) / (mx - mn)) * (1 - 0) + 0)) a)).
Proof.
  destruct (arr_max_ok a Hne) as [mx Hmx]; destruct (arr_min_ok a Hne) as [mn Hmn].
  exists mx, mn; unfold normalize_image; rewrite Hmx, Hmn; simpl; auto.
Qed.

(** C10: [normalize_image] on a non-empty array with the default target range
    (0, 1): when every value is equal it returns the all-zero array of the same
    shape, and otherwise it returns an array of the same shape whose values all
    lie in [0, 1], with some value equal to 0 and some value equal to 1. *)
Theorem normalize_image_total_range (a : grid) (Hne : elems a <> []) :
  (all_equal (elems a) -> normalize_image a 0 1 = Ok (zeros_like a)) /\
  (~ all_equal (elems a) ->
   exists out, normalize_image a 0 1 = Ok out /\
     map (@List.length Q) out = map (@List.length Q) a /\
     (forall v, In v (elems out) -> 0 <= v <= 1) /\
     (exists v, In v (elems out) /\ v == 0) /\
     (exists v, In v (elems out) /\ v == 1)).
Proof.
  destruct (normalize_image_cases a Hne) as (mx & mn & Hmx & Hmn & ->).
  destruct (arr_max_spec a mx Hmx) as [Inmx Lemx].
  destruct (arr_min_spec a mn Hmn) as [Inmn Lemn].
  destruct (Qeq_bool mx mn) eqn:E.
  - apply Qeq_bool_iff in E; split; [reflexivity|].
    intros Hneq; exfalso; apply Hneq; intros x y Hx Hy.
    assert (x == mn) by (apply Qle_antisym; [rewrite <- E; auto|auto]).
    assert (y == mn) by (apply Qle_antisym; [rewrite <- E; auto|auto]).
    now transitivity mn.
  - assert (Hlt : mn < mx).
    { destruct (Qle_lt_or_eq mn mx (Lemx mn Inmn)) as [H|H]; [exact H|].
      exfalso; apply Qeq_bool_neq in E; apply E; now symmetry. }
    split.
    + intros Hall; exfalso; apply Qeq_bool_neq in E; apply E; now apply Hall.
    + intros _; eexists; split; [reflexivity|].
      rewrite shape_map, elems_map; split; [reflexivity|]; split; [|split].
      * intros v Hv; apply in_map_iff in Hv; destruct Hv as (x & <- & Hx).
        apply scale_in_unit; auto.
      * exists ((mn - mn) / (mx - mn) * (1 - 0) + 0); split.
        -- apply in_map_iff; eauto.
        -- setoid_replace (mn - mn) with 0 by ring; unfold Qdiv; ring.
      * exists ((mx - mn) / (mx - mn) * (1 - 0) + 0); split.
        -- apply in_map_iff; eauto.
        -- assert (Hd : ~ mx - mn == 0).
           { intros H; apply Qlt_minus_iff in Hlt; rewrite H in Hlt; discriminate. }
           field; exact Hd.
Qed.

Lemma normalize_image_total_range_witness :
  elems [[1; 2]; [3; 5]] <> [] /\
  ((all_equal (elems [[1; 2]; [3; 5]]) ->
    normalize_image [[1; 2]; [3; 5]] 0 1 = Ok (zeros_like [[1; 2]; [3; 5]])) /\
   (~ all_equal (elems [[1; 2]; [3; 5]]) ->
    exists out, normalize_image [[1; 2]; [3; 5]] 0 1 = Ok out /\
     map (@List.length Q) out = map (@List.length Q) [[1; 2]; [3; 5]] /\
     (forall v, In v (elems out) -> 0 <= v <= 1) /\
     (exists v, In v (elems out) /\ v == 0) /\
     (exists v, In v (elems out) /\ v == 1))).
Proof.
  split; [simpl; discriminate|].
  apply (normalize_image_total_range [[1; 2]; [3; 5]]); simpl; discriminate.
Defined.

(* ------------------------------------------------------------------------- *)
(** ** Fallback predictor *)

(** C7: [_predict_based_on_features] is a total function (it has no failing
    step) and returns a non-empty prediction list for every feature record:
    every shape type, every coverage and every centroid, with or without an
    [error] entry. *)
Theorem predict_based_on_features_nonempty (f : features) :
  Recognition.predict_based_on_features f <> [].
Proof.
  unfold Recognition.predict_based_on_features.
  destruct (f_error f); [discriminate|].
  destruct (match f_centroid f with Some c => c | None => _ end) as [cy cx].
  repeat match goal with |- context [if ?b then _ else _] => destruct b end;
    discriminate.
Qed.

(* ------------------------------------------------------------------------- *)
(** ** Blank drawings *)

Lemma in_elems_repeat (x y : Q) (w h : nat) :
  In y (elems (repeat (repeat x w) h)) -> y = x.
Proof.
  unfold elems; intros Hy; apply in_concat in Hy; destruct Hy as (r & Hr & Hy).
  apply repeat_spec in Hr; subst r; now apply repeat_spec in Hy.
Qed.

Lemma elems_repeat_nonempty (x : Q) (w h : nat) :
  elems (repeat (repeat x (S w)) (S h)) <> [].
Proof. unfold elems; simpl; discriminate. Qed.

Lemma normalize_image_uniform (a : grid) (x lo hi : Q) :
  elems a <> [] -> (forall y, In y (elems a) -> y = x) ->
  normalize_image a lo hi = Ok (zeros_like a).
Proof.
  intros Hne Hall.
  destruct (arr_max_ok a Hne) as [mx Hmx]; destruct (arr_min_ok a Hne) as [mn Hmn].
  pose proof (Hall mx (proj1 (arr_max_spec a mx Hmx))) as ->.
  pose proof (Hall mn (proj1 (arr_min_spec a mn Hmn))) as ->.
  unfold normalize_image; rewrite Hmx, Hmn; simpl.
  now rewrite (proj2 (Qeq_bool_iff x x) (Qeq_refl x)).
Qed.

Lemma zeros_like_repeat (x : Q) (w h : nat) :
  zeros_like (repeat (repeat x w) h) = zeros h w.
Proof.
  unfold zeros_like, zeros; rewrite map_repeat; f_equal; now rewrite map_repeat.
Qed.

Lemma all_points_empty (strokes : list stroke) :
  Forall (fun s => s = []) strokes -> all_points strokes = [].
Proof.
  unfold all_points; induction 1 as [|s ss Hs _ IH]; [reflexivity|].
  subst s; exact IH.
Qed.

(** C8: with the inverted polarity every caller uses ([invert=True], the
    default), rasterizing a drawing whose strokes are all empty (in particular
    one with no stroke) on a canvas of positive size returns the all-zero
    (no-ink) array without raising, and normalizing that array again returns it
    unchanged. *)
Theorem blank_drawing_rasterizes_to_zeros (L : Lib) (strokes : list stroke)
    (w h line_width : nat) (Hblank : Forall (fun s => s = []) strokes) :
  preprocess_stroke_data L strokes (S w) (S h) line_width true = Ok (zeros (S h) (S w)) /\
  normalize_image (zeros (S h) (S w)) 0 1 = Ok (zeros (S h) (S w)).
Proof.
  split.
  - unfold preprocess_stroke_data; rewrite (all_points_empty strokes Hblank).
    unfold points_bbox; cbv beta iota zeta.
    rewrite map_repeat, map_repeat.
    rewrite (normalize_image_uniform _ (255 - 255)).
    + now rewrite zeros_like_repeat.
    + apply elems_repeat_nonempty.
    + intros y; apply in_elems_repeat.
  - unfold zeros; rewrite (normalize_image_uniform _ 0).
    + now rewrite zeros_like_repeat.
    + apply elems_repeat_nonempty.
    + intros y; apply in_elems_repeat.
Qed.

Lemma blank_drawing_rasterizes_to_zeros_witness :
  Forall (fun s : stroke => s = []) [[]; []] /\
  (preprocess_stroke_data stub_lib [[]; []] 3 2 2 true = Ok (zeros 2 3) /\
   normalize_image (zeros 2 3) 0 1 = Ok (zeros 2 3)).
Proof.
  split; [repeat constructor|].
  apply (blank_drawing_rasterizes_to_zeros stub_lib [[]; []] 2 1 2).
  repeat constructor.
Defined.

(* ------------------------------------------------------------------------- *)
(** ** Shape type *)

Ltac qcontra :=
  match goal with
  | H1 : ?x < ?y, H2 : ?y <= ?x |- _ => exfalso; exact (Qlt_not_le _ _ H1 H2)
  end.

Lemma circularity_of_formula (area perimeter : Q) :
  circularity_of area perimeter == 4 * np_pi * area / (perimeter * perimeter).
Proof.
  unfold circularity_of; destruct (Qeq_bool perimeter 0) eqn:E; [|reflexivity].
  apply Qeq_bool_iff in E; rewrite E; unfold Qdiv.
  change (/ (0 * 0)) with 0; now rewrite Qmult_0_r.
Qed.

Lemma rectangularity_of_formula (area : Q) (c : contour) (x y w h : Z) :
  bounding_rect c = (x, y, w, h) ->
  rectangularity_of area c == area / inject_Z (w * h).
Proof.
  intros Hb; unfold rectangularity_of; rewrite Hb.
  destruct (Z.eqb (w * h) 0) eqn:E; [|reflexivity].
  apply Z.eqb_eq in E; rewrite E; unfold Qdiv.
  change (/ inject_Z 0) with 0; now rewrite Qmult_0_r.
Qed.

(** C9: [detect_shape_type] returns "no_shape" exactly when OpenCV finds no
    contour in the binarized image or the largest contour has area below 10.
    When the largest contour has area at least 10 it returns "circular"
    exactly when 4 pi area / perimeter^2 > 0.7 (the source's guard for a zero
    perimeter gives 0, as does the division here), "rectangular" exactly when
    that fails and area / (w h) > 0.7 for the bounding rectangle w x h, and
    "irregular" exactly when both fail. *)
Theorem detect_shape_type_spec (L : Lib) (img : grid) :
  (detect_shape_type L img = "no_shape" <->
   find_contours L (binarize_240 img) = [] \/
   exists c cs, find_contours L (binarize_240 img) = c :: cs /\
                contour_area (largest_contour c cs) < 10) /\
  (forall c cs, find_contours L (binarize_240 img) = c :: cs ->
   forall x y w h, bounding_rect (largest_contour c cs) = (x, y, w, h) ->
   let area := contour_area (largest_contour c cs) in
   let circularity := 4 * np_pi * area / (arc_length L (largest_contour c cs) *
                                           arc_length L (largest_contour c cs)) in
   let rectangularity := area / inject_Z (w * h) in
   10 <= area ->
   (detect_shape_type L img = "circular" <-> 7 # 10 < circularity) /\
   (detect_shape_type L img = "rectangular" <->
      ~ (7 # 10 < circularity) /\ 7 # 10 < rectangularity) /\
   (detect_shape_type L img = "irregular" <->
      ~ (7 # 10 < circularity) /\ ~ (7 # 10 < rectangularity))).
Proof.
  unfold detect_shape_type.
  destruct (find_contours L (binarize_240 img)) as [|c0 cs0] eqn:E.
  - split; [split; [now left|reflexivity]|].
    intros c cs H; discriminate.
  - cbv zeta.
    set (a := contour_area (largest_contour c0 cs0)).
    destruct (Qlt_le_dec a 10) as [Hlt|Hge].
    + split.
      * split; [intros _; right; eauto|reflexivity].
      * intros c cs H; injection H as <- <-; intros x y w h _ Ha.
        exfalso; apply (Qlt_not_le _ _ Hlt Ha).
    + split.
      * split.
        -- destruct (Qlt_le_dec _ (circularity_of _ _)); [discriminate|].
           destruct (Qlt_le_dec _ (rectangularity_of _ _)); discriminate.
        -- intros [H|(c & cs & H & Hlt)]; [discriminate|].
           injection H as <- <-; exfalso; apply (Qlt_not_le _ _ Hlt Hge).
      * intros c cs H; injection H as <- <-; intros x y w h Hb Ha.
        pose proof (circularity_of_formula a (arc_length L (largest_contour c0 cs0))) as Hce.
        pose proof (rectangularity_of_formula a _ x y w h Hb) as Hre.
        destruct (Qlt_le_dec (7 # 10) (circularity_of _ _)) as [Hc|Hc];
          rewrite Hce in Hc;
          [|destruct (Qlt_le_dec (7 # 10) (rectangularity_of _ _)) as [Hr|Hr];
            rewrite Hre in Hr];
          unfold a in *; repeat split; intros; try reflexivity; try discriminate;
          try qcontra; try (destruct H; qcontra);
          try tauto; try (intro; qcontra).
Qed.

(* ------------------------------------------------------------------------- *)
(** ** Enhanced preprocessing on blank input *)

Lemma arr_max_uniform (a : grid) (x : Q) :
  elems a <> [] -> (forall y, In y (elems a) -> y = x) -> arr_max a = Ok x.
Proof.
  intros Hne Hall; destruct (arr_max_ok a Hne) as [m Hm]; rewrite Hm.
  now rewrite (Hall m (proj1 (arr_max_spec a m Hm))).
Qed.

Lemma arr_min_uniform (a : grid) (x : Q) :
  elems a <> [] -> (forall y, In y (elems a) -> y = x) -> arr_min a = Ok x.
Proof.
  intros Hne Hall; destruct (arr_min_ok a Hne) as [m Hm]; rewrite Hm.
  now rewrite (Hall m (proj1 (arr_min_spec a m Hm))).
Qed.

Lemma uniform_map (f : Q -> Q) (a : grid) (x : Q) :
  (forall y, In y (elems a) -> y = x) ->
  forall y, In y (elems (map (map f) a)) -> y = f x.
Proof.
  intros Hall y; rewrite elems_map; intros Hy; apply in_map_iff in Hy.
  destruct Hy as (z & <- & Hz); now rewrite (Hall z Hz).
Qed.

Lemma nonempty_map (f : Q -> Q) (a : grid) :
  elems a <> [] -> elems (map (map f) a) <> [].
Proof. rewrite elems_map; destruct (elems a); [congruence|discriminate]. Qed.


(** When the binarized image has no contour, and neither has its inverse,
    [enhanced_preprocess_image] returns the all-zero [ts] x [ts] array. *)
Lemma enhanced_preprocess_image_no_contours (L : Lib) (image : image_input) (ts : nat)
    (binary : grid) :
  binarize_step L image = Ok binary ->
  find_contours L binary = [] ->
  find_contours L (map (map (fun v => 255 - v)) binary) = [] ->
  enhanced_preprocess_image L image ts = Ok (zeros ts ts).
Proof.
  intros Hb H1 H2; unfold enhanced_preprocess_image; rewrite Hb; simpl.
  now rewrite H1, H2.
Qed.

(** C4: on a non-empty raster whose pixels are all equal (a PIL image, or an
    array of any dtype), [enhanced_preprocess_image] does not return the
    all-zero fallback: it raises [UnboundLocalError], since the branch for
    uniform images assigns [binary = img_uint8] and [img_uint8] is only
    assigned in the other branch. *)
Theorem enhanced_preprocess_image_uniform_raises (L : Lib) (a : grid) (x : Q) (ts : nat) :
  elems a <> [] -> (forall y, In y (elems a) -> y = x) ->
  enhanced_preprocess_image L (PILImage a) ts = Err unbound_img_uint8 /\
  (forall dt, enhanced_preprocess_image L (NDArray dt a) ts = Err unbound_img_uint8).
Proof.
  intros Hne Hall.
  pose proof (nonempty_map (fun v => v / 255) a Hne) as Hn2.
  pose proof (uniform_map (fun v => v / 255) a x Hall) as Hu2; cbv beta in Hu2.
  split; [|intros dt]; unfold enhanced_preprocess_image, binarize_step; cbv beta iota zeta.
  - rewrite (arr_max_uniform _ _ Hn2 Hu2), (arr_min_uniform _ _ Hn2 Hu2); cbn [bind].
    destruct (Qlt_le_dec (x / 255) (x / 255)) as [Hq|_];
      [exfalso; exact (Qlt_irrefl _ Hq)|reflexivity].
  - destruct dt;
      [rewrite (arr_max_uniform _ _ Hn2 Hu2), (arr_min_uniform _ _ Hn2 Hu2); cbn [bind];
       destruct (Qlt_le_dec (x / 255) (x / 255)) as [Hq|_]
      |rewrite (arr_max_uniform _ _ Hne Hall), (arr_min_uniform _ _ Hne Hall); cbn [bind];
       destruct (Qlt_le_dec x x) as [Hq|_]..];
      solve [exfalso; exact (Qlt_irrefl _ Hq)|reflexivity].
Qed.

Lemma enhanced_preprocess_image_uniform_raises_witness :
  elems white28 <> [] /\ (forall y, In y (elems white28) -> y = 255) /\
  (enhanced_preprocess_image stub_lib (PILImage white28) 28 = Err unbound_img_uint8 /\
   (forall dt, enhanced_preprocess_image stub_lib (NDArray dt white28) 28 =
               Err unbound_img_uint8)).
Proof.
  split; [unfold white28; simpl; discriminate|].
  split; [intros y; apply in_elems_repeat|].
  apply (enhanced_preprocess_image_uniform_raises stub_lib white28 255 28).
  - unfold white28; simpl; discriminate.
  - intros y; apply in_elems_repeat.
Defined.

(* ------------------------------------------------------------------------- *)
(** ** Stroke rasterization: placement of the points *)

Lemma points_bbox_spec (pts : list point) (min_x min_y max_x max_y : Q) :
  points_bbox pts = Some (min_x, min_y, max_x, max_y) ->
  forall p, In p pts -> min_x <= fst p <= max_x /\ min_y <= snd p <= max_y.
Proof.
  destruct pts as [|p0 ps]; [discriminate|]; simpl; intros H; injection H as <- <- <- <-.
  intros p Hp.
  assert (Hx : In (fst p) (fst p0 :: map fst ps)).
  { destruct Hp as [<-|Hp]; [now left|right; now apply in_map]. }
  assert (Hy : In (snd p) (snd p0 :: map snd ps)).
  { destruct Hp as [<-|Hp]; [now left|right; now apply in_map]. }
  repeat split.
  - now apply fold_qmin_spec.
  - now apply fold_qmax_spec.
  - now apply fold_qmin_spec.
  - now apply fold_qmax_spec.
Qed.

Lemma qmax_range (r eps : Q) : eps <= r -> qmax r eps = r.
Proof.
  unfold qmax; intros H; destruct (Qlt_le_dec r eps) as [H'|]; [|reflexivity].
  exfalso; exact (Qlt_not_le _ _ H' H).
Qed.

Lemma affine_bounds (W t : Q) :
  0 <= W -> 0 <= t <= 1 -> (1 # 10) * W <= (1 # 10) * W + (8 # 10) * W * t <= (9 # 10) * W.
Proof.
  intros HW [H0 H1].
  assert (Hc : 0 <= (8 # 10) * W) by (apply Qmult_le_0_compat; [discriminate|exact HW]).
  assert (A : 0 <= (8 # 10) * W * t) by (apply Qmult_le_0_compat; assumption).
  assert (B : (8 # 10) * W * t <= (8 # 10) * W * 1)
    by (apply Qmult_le_compat_nonneg; split; auto using Qle_refl).
  split.
  - apply Qle_minus_iff; setoid_replace ((1 # 10) * W + (8 # 10) * W * t + - ((1 # 10) * W))
      with ((8 # 10) * W * t) by ring; exact A.
  - apply Qle_minus_iff in B; apply Qle_minus_iff.
    setoid_replace ((9 # 10) * W + - ((1 # 10) * W + (8 # 10) * W * t))
      with ((8 # 10) * W * 1 + - ((8 # 10) * W * t)) by ring; exact B.
Qed.

Lemma q_of_nat_nonneg (n : nat) : 0 <= inject_Z (Z.of_nat n).
Proof. unfold Qle; simpl; lia. Qed.

Lemma normalize_point_axis (W x mn mx : Q) :
  0 <= W -> (1 # 100000000) <= mx - mn -> mn <= x <= mx ->
  (1 # 10) * W + (8 # 10) * W * (x - mn) / (mx - mn) ==
    (1 # 10) * W + (8 # 10) * W * ((x - mn) / (mx - mn)) /\
  (1 # 10) * W <= (1 # 10) * W + (8 # 10) * W * (x - mn) / (mx - mn) <= (9 # 10) * W.
Proof.
  intros HW Hr [Hlo Hhi].
  assert (Heq : (1 # 10) * W + (8 # 10) * W * (x - mn) / (mx - mn) ==
                (1 # 10) * W + (8 # 10) * W * ((x - mn) / (mx - mn)))
    by (unfold Qdiv; ring).
  split; [exact Heq|]; rewrite Heq.
  assert (Hlt : mn < mx).
  { apply Qlt_minus_iff; eapply Qlt_le_trans; [|exact Hr]; reflexivity. }
  pose proof (scale_in_unit x mn mx Hlo Hhi Hlt) as Hs.
  setoid_replace ((x - mn) / (mx - mn) * (1 - 0) + 0) with ((x - mn) / (mx - mn)) in Hs by ring.
  now apply affine_bounds.
Qed.

(** C5 (amended): when the bounding box of all points of all strokes has both
    extents at least 1e-8, [preprocess_stroke_data] places each point with two
    independent affine maps, x' = 0.1 W + 0.8 W (x - min_x) / (max_x - min_x)
    and y' = 0.1 H + 0.8 H (y - min_y) / (max_y - min_y): every point lands in
    [0.1 W, 0.9 W] x [0.1 H, 0.9 H], and the box corners land on (0.1 W, 0.1 H)
    and (0.9 W, 0.9 H), so the content's aspect ratio becomes the canvas's. *)
Theorem stroke_points_scaled_per_axis (strokes : list stroke) (width height : nat)
    (min_x min_y max_x max_y : Q) :
  points_bbox (all_points strokes) = Some (min_x, min_y, max_x, max_y) ->
  (1 # 100000000) <= max_x - min_x -> (1 # 100000000) <= max_y - min_y ->
  (forall p, In p (all_points strokes) ->
   let q := normalize_point width height (min_x, min_y, max_x, max_y) p in
   fst q == (1 # 10) * q_of_nat width + (8 # 10) * q_of_nat width * ((fst p - min_x) / (max_x - min_x)) /\
   snd q == (1 # 10) * q_of_nat height + (8 # 10) * q_of_nat height * ((snd p - min_y) / (max_y - min_y)) /\
   (1 # 10) * q_of_nat width <= fst q <= (9 # 10) * q_of_nat width /\
   (1 # 10) * q_of_nat height <= snd q <= (9 # 10) * q_of_nat height) /\
  (let q := normalize_point width height (min_x, min_y, max_x, max_y) (min_x, min_y) in
   fst q == (1 # 10) * q_of_nat width /\ snd q == (1 # 10) * q_of_nat height) /\
  (let q := normalize_point width height (min_x, min_y, max_x, max_y) (max_x, max_y) in
   fst q == (9 # 10) * q_of_nat width /\ snd q == (9 # 10) * q_of_nat height).
Proof.
  intros Hbb Hrx Hry.
  pose proof (points_bbox_spec _ _ _ _ _ Hbb) as Hin.
  assert (Hlx : min_x <= max_x /\ min_y <= max_y).
  { destruct (all_points strokes) as [|p0 ps] eqn:E; [discriminate|].
    destruct (Hin p0 (or_introl eq_refl)) as [[A B] [C D]].
    split; eapply Qle_trans; eauto. }
  assert (Hdx : ~ max_x - min_x == 0).
  { intros H; apply (Qle_not_lt _ _ Hrx); apply Qle_lt_trans with 0;
      [apply Qle_lteq; now right|reflexivity]. }
  assert (Hdy : ~ max_y - min_y == 0).
  { intros H; apply (Qle_not_lt _ _ Hry); apply Qle_lt_trans with 0;
      [apply Qle_lteq; now right|reflexivity]. }
  unfold normalize_point; rewrite (qmax_range _ _ Hrx), (qmax_range _ _ Hry).
  fold (q_of_nat width) (q_of_nat height).
  split; [|split]; cbv zeta; simpl fst; simpl snd.
  - intros p Hp; destruct (Hin p Hp) as [Hx Hy].
    destruct (normalize_point_axis (q_of_nat width) (fst p) min_x max_x
                (q_of_nat_nonneg width) Hrx Hx) as [E1 B1].
    destruct (normalize_point_axis (q_of_nat height) (snd p) min_y max_y
                (q_of_nat_nonneg height) Hry Hy) as [E2 B2].
    auto.
  - split; unfold Qdiv; ring.
  - split; [field; exact Hdx|field; exact Hdy].
Qed.

Lemma stroke_points_scaled_per_axis_witness :
  points_bbox (all_points [[(0, 0); (2, 1)]]) = Some (0, 0, 2, 1) /\
  (1 # 100000000) <= 2 - 0 /\ (1 # 100000000) <= 1 - 0 /\
  ((forall p, In p (all_points [[(0, 0); (2, 1)]]) ->
    let q := normalize_point 28 28 (0, 0, 2, 1) p in
    fst q == (1 # 10) * q_of_nat 28 + (8 # 10) * q_of_nat 28 * ((fst p - 0) / (2 - 0)) /\
    snd q == (1 # 10) * q_of_nat 28 + (8 # 10) * q_of_nat 28 * ((snd p - 0) / (1 - 0)) /\
    (1 # 10) * q_of_nat 28 <= fst q <= (9 # 10) * q_of_nat 28 /\
    (1 # 10) * q_of_nat 28 <= snd q <= (9 # 10) * q_of_nat 28) /\
   (let q := normalize_point 28 28 (0, 0, 2, 1) (0, 0) in
    fst q == (1 # 10) * q_of_nat 28 /\ snd q == (1 # 10) * q_of_nat 28) /\
   (let q := normalize_point 28 28 (0, 0, 2, 1) (2, 1) in
    fst q == (9 # 10) * q_of_nat 28 /\ snd q == (9 # 10) * q_of_nat 28)).
Proof.
  split; [reflexivity|]; split; [discriminate|]; split; [discriminate|].
  apply (stroke_points_scaled_per_axis [[(0, 0); (2, 1)]] 28 28 0 0 2 1);
    [reflexivity|discriminate|discriminate].
Defined.

(** C5 (counterexample): one stroke from (0, 0) to (2, 1), whose bounding box
    is 2 wide and 1 high (ratio 2:1), is placed on a 28 x 28 canvas from
    (2.8, 2.8) to (25.2, 25.2): a 22.4 x 22.4 square (ratio 1:1). *)
Lemma stroke_aspect_ratio_counterexample :
  points_bbox (all_points [[(0, 0); (2, 1)]]) = Some (0, 0, 2, 1) /\
  (let q0 := normalize_point 28 28 (0, 0, 2, 1) (0, 0) in
   let q1 := normalize_point 28 28 (0, 0, 2, 1) (2, 1) in
   Qeq_bool (fst q0) (14 # 5) && Qeq_bool (snd q0) (14 # 5) &&
   Qeq_bool (fst q1) (126 # 5) && Qeq_bool (snd q1) (126 # 5) &&
   Qeq_bool ((fst q1 - fst q0) / (snd q1 - snd q0)) 1)%bool = true /\
  Qeq_bool ((2 - 0) / (1 - 0)) 2 = true.
Proof. vm_compute; repeat split. Qed.

(* ------------------------------------------------------------------------- *)
(** ** Sorting and confidence sums *)

Lemma insert_desc_in {A : Type} (k : A -> Q) (x y : A) (l : list A) :
  In y (insert_desc k x l) <-> x = y \/ In y l.
Proof.
  induction l as [|z l IH]; simpl; [tauto|].
  destruct (qltb (k z) (k x)); simpl; [tauto|].
  rewrite IH; tauto.
Qed.

Lemma sort_desc_in {A : Type} (k : A -> Q) (y : A) (l : list A) :
  In y (sort_desc k l) <-> In y l.
Proof.
  unfold sort_desc.
  assert (G : forall acc, In y (fold_left (fun acc x => insert_desc k x acc) l acc) <->
                          In y l \/ In y acc).
  { induction l as [|x l IH]; intros acc; simpl; [tauto|].
    rewrite IH, insert_desc_in; tauto. }
  rewrite G; simpl; tauto.
Qed.

Lemma sum_conf_acc (l : list pred) (a : Q) :
  fold_left (fun acc p => acc + snd p) l a == a + sum_conf l.
Proof.
  unfold sum_conf; revert a; induction l as [|p l IH]; intros a; simpl; [ring|].
  rewrite (IH (a + snd p)), (IH (0 + snd p)); ring.
Qed.

Lemma sum_conf_cons (p : pred) (l : list pred) : sum_conf (p :: l) == snd p + sum_conf l.
Proof. unfold sum_conf at 1; simpl; rewrite sum_conf_acc; ring. Qed.

Lemma sum_conf_scale (l : list pred) (t : Q) :
  sum_conf (map (fun p => (fst p, snd p / t)) l) == sum_conf l / t.
Proof.
  induction l as [|p l IH]; [reflexivity|].
  simpl map; rewrite !sum_conf_cons, IH; simpl; unfold Qdiv; ring.
Qed.

Lemma in_firstn_l {A : Type} (n : nat) (x : A) (l : list A) : In x (firstn n l) -> In x l.
Proof.
  revert l; induction n as [|n IH]; intros [|y l]; simpl; try tauto.
  intros [<-|H]; [now left|right; now apply IH].
Qed.

Lemma sum_conf_pos (l : list pred) :
  (forall p, In p l -> 0 < snd p) -> l <> [] -> 0 < sum_conf l.
Proof.
  induction l as [|p l IH]; intros Hp Hne; [congruence|].
  rewrite sum_conf_cons.
  assert (A : 0 < snd p) by (apply Hp; now left).
  destruct l as [|q l].
  - unfold sum_conf; simpl; rewrite Qplus_0_r; exact A.
  - assert (B : 0 < sum_conf (q :: l)) by (apply IH; [intros; apply Hp; now right|discriminate]).
    apply Qlt_trans with (snd p); [exact A|].
    apply Qlt_minus_iff; setoid_replace (snd p + sum_conf (q :: l) + - snd p)
      with (sum_conf (q :: l)) by ring; exact B.
Qed.

(** The fallback predictor's scores are positive. *)
Lemma predict_based_on_features_pos (f : features) :
  Recognition.predict_based_on_features f <> [] /\
  forall p, In p (Recognition.predict_based_on_features f) -> 0 < snd p.
Proof.
  unfold Recognition.predict_based_on_features.
  destruct (f_error f); [split; [discriminate|intros p Hp; simpl in Hp; intuition (subst; reflexivity)]|].
  destruct (match f_centroid f with Some c => c | None => _ end) as [cy cx].
  repeat match goal with |- context [if ?b then _ else _] => destruct b end;
    (split; [discriminate|intros p Hp; simpl in Hp; intuition (subst; reflexivity)]).
Qed.

(** With at least one slot, the fallback path of [predict] (lines 463-502)
    returns positive confidences that sum to 1. *)
Lemma fallback_tail_normalized (st : Recognition.service) (f : features) :
  (0 < Recognition.top_k st)%nat ->
  (forall p, In p (Recognition.fallback_tail st f) -> 0 < snd p) /\
  sum_conf (Recognition.fallback_tail st f) == 1.
Proof.
  intros Hk; unfold Recognition.fallback_tail.
  match goal with |- context [Nat.ltb (List.length ?B) _] => set (base := B) end.
  assert (Hbase : base <> [] /\ forall p, In p base -> 0 < snd p).
  { subst base; destruct (predict_based_on_features_pos f) as [Hne Hpos].
    destruct (Recognition.predict_based_on_features f); [congruence|auto]. }
  match goal with |- context [firstn (Recognition.top_k st) (sort_desc snd ?P)] =>
    set (padded := P) end.
  assert (Hpad : padded <> [] /\ forall p, In p padded -> 0 < snd p).
  { subst padded; destruct (Nat.ltb _ _); [|exact Hbase].
    split.
    - destruct base; [now destruct Hbase|discriminate].
    - intros p Hp; apply in_app_or in Hp; destruct Hp as [Hp|Hp]; [now apply Hbase|].
      apply in_map_iff in Hp; destruct Hp as (c & <- & _); reflexivity. }
  set (cut := firstn (Recognition.top_k st) (sort_desc snd padded)).
  assert (Hcut : cut <> [] /\ forall p, In p cut -> 0 < snd p).
  { subst cut; split.
    - destruct (sort_desc snd padded) as [|p ps] eqn:E.
      + destruct padded as [|p ps]; [now destruct Hpad|].
        exfalso; pose proof (proj2 (sort_desc_in snd p (p :: ps)) (or_introl eq_refl)).
        rewrite E in H; destruct H.
      + destruct (Recognition.top_k st); [lia|discriminate].
    - intros p Hp; apply in_firstn_l in Hp; apply sort_desc_in in Hp; now apply Hpad. }
  destruct Hcut as [Hne Hpos].
  pose proof (sum_conf_pos cut Hpos Hne) as Htot.
  unfold qltb; destruct (Qlt_le_dec 0 (sum_conf cut)) as [_|H];
    [|exfalso; exact (Qlt_not_le _ _ Htot H)].
  split.
  - intros p Hp; apply in_map_iff in Hp; destruct Hp as (q & <- & Hq); simpl.
    apply Qlt_shift_div_l; [exact Htot|]; rewrite Qmult_0_l; now apply Hpos.
  - rewrite sum_conf_scale; field.
    intros H; apply (Qlt_not_eq 0 _ Htot); symmetry; exact H.
Qed.

(* ------------------------------------------------------------------------- *)
(** ** Confidences of the recognition services *)

(** [predict] of recognition.py without a model: the error response, or the
    renormalized fallback list. *)
Lemma predict_no_model_normalized (L : Lib) (st : Recognition.service)
    (input : Recognition.pyinput) :
  (0 < Recognition.top_k st)%nat -> Recognition.model st = None ->
  top_predictions (Recognition.predict L st input) <> [] /\
  (forall p, In p (top_predictions (Recognition.predict L st input)) -> 0 < snd p) /\
  sum_conf (top_predictions (Recognition.predict L st input)) == 1.
Proof.
  intros Hk Hm; unfold Recognition.predict.
  destruct (Recognition.predict_inputs L input) as [[processed f]|e].
  - unfold Recognition.model_step; rewrite Hm; simpl.
    destruct (fallback_tail_normalized st f Hk) as [Hpos Hsum].
    split; [|split; assumption].
    intros H; rewrite H in Hsum; discriminate.
  - simpl; split; [discriminate|split; [intros p [<-|[]]; reflexivity|reflexivity]].
Qed.

(** C1 (counterexample): [recognize_sketch] of recognition_service.py on a
    white 1 x 1 PIL image, with a model whose scores sum to 1, succeeds with
    the confidences 70.0 and 30.0, which sum to 100, not 1. *)
Lemma recognize_percent_counterexample :
  success (RecognitionServicePy.recognize stub_lib softmax_service
             (RecognitionServicePy.RawPIL [[255]])) = true /\
  map fst (top_predictions (RecognitionServicePy.recognize stub_lib softmax_service
             (RecognitionServicePy.RawPIL [[255]]))) = ["cat"; "dog"] /\
  match map snd (top_predictions (RecognitionServicePy.recognize stub_lib
             softmax_service (RecognitionServicePy.RawPIL [[255]]))) with
  | [c1; c2] => (Qeq_bool c1 70 && Qeq_bool c2 30)%bool
  | _ => false
  end = true /\
  Qeq_bool (sum_conf (top_predictions (RecognitionServicePy.recognize stub_lib
             softmax_service (RecognitionServicePy.RawPIL [[255]])))) 100 = true.
Proof. vm_compute; repeat split. Qed.

(* ------------------------------------------------------------------------- *)
(** ** An all-white bitmap through recognition.py *)

(** C6: [predict] of recognition.py on a 28 x 28 all-white PIL image, with no
    model loaded.  The enhanced preprocessing raises on the uniform image, and
    the basic one scales it to [0, 1] and inverts it (mean above 0.5), giving
    the all-zero tensor; [analyze_image_content] then reads that tensor in the
    raw polarity (ink is [< 240]) and reports coverage 1, not 0.  The response
    is still a non-empty fallback list whose confidences sum to 1. *)
Theorem white_bitmap_predict (L : Lib) (cn : list string) :
  (match Recognition.predict_inputs L (Recognition.InPIL white28) with
   | Ok (Some p, f) =>
       forallb (fun v => Qeq_bool v 0) (elems p) = true /\
       match f_coverage f with Some c => Qeq_bool c 1 = true | None => False end
   | _ => False
   end) /\
  success (Recognition.predict L (Recognition.mk_service None cn 5)
             (Recognition.InPIL white28)) = true /\
  top_predictions (Recognition.predict L (Recognition.mk_service None cn 5)
                     (Recognition.InPIL white28)) <> [] /\
  sum_conf (top_predictions (Recognition.predict L (Recognition.mk_service None cn 5)
                               (Recognition.InPIL white28))) == 1.
Proof.
  assert (Henh : enhanced_preprocess_image L (PILImage white28) 28 = Err unbound_img_uint8)
    by (vm_compute; reflexivity).
  assert (Hbasic : Recognition.basic_preprocess_image L (PILImage white28) =
                   Ok (map (map (fun v => 1 - v)) (map (map (fun v => v / 255)) white28)))
    by (vm_compute; reflexivity).
  assert (Hmx : arr_max (map (map (fun v => 1 - v)) (map (map (fun v => v / 255)) white28)) =
                Ok (1 - 255 / 255)) by (vm_compute; reflexivity).
  assert (Hle : Qle_bool (1 - 255 / 255) 1 = true) by reflexivity.
  assert (E : Recognition.predict_inputs L (Recognition.InPIL white28) =
              Ok (Some (map (map (fun v => 1 - v)) (map (map (fun v => v / 255)) white28)),
                  let I := map (map (fun v => to_uint8 (v * 255)))
                               (map (map (fun v => 1 - v)) (map (map (fun v => v / 255)) white28)) in
                  mk_features None (Some (detect_shape_type L I)) (Some (coverage I))
                              (Some (calculate_centroid I)))).
  { unfold Recognition.predict_inputs, Recognition.preprocess_image.
    rewrite Henh, Hbasic; cbv beta iota zeta delta [bind].
    unfold analyze_image_content; rewrite Hmx; cbv beta iota zeta delta [bind].
    now rewrite Hle. }
  rewrite E; split; [cbv beta iota zeta delta [f_coverage]; split; vm_compute; reflexivity|].
  destruct (predict_no_model_normalized L (Recognition.mk_service None cn 5)
              (Recognition.InPIL white28) ltac:(simpl; lia) eq_refl) as (Hne & _ & Hsum).
  split; [unfold Recognition.predict; now rewrite E|].
  split; assumption.
Qed.

(* ------------------------------------------------------------------------- *)
(** ** Error handling of recognize_sketch *)

(** C3 (amended): [recognize_sketch] (shared by recognition_service.py and the
    ensemble service) returns a response for every input.  Exactly when
    preprocessing or prediction raises [e], the response has [success = false],
    [error = str(e)] and the single candidate ("error", 100.0), the confidence
    being a percentage; otherwise [success = true] and the candidates are the
    predictor's list with percentages, which may be empty. *)
Theorem recognize_sketch_outcomes (raw : Type) (pre : raw -> res grid)
    (pr : grid -> res (list pred)) (x : raw) :
  (exists e, (let* g := pre x in pr g) = Err e /\
     recognize_sketch raw pre pr x = mk_response false (Some (exn_str e)) [("error", 100)]) \/
  (exists preds, (let* g := pre x in pr g) = Ok preds /\
     recognize_sketch raw pre pr x =
       mk_response true None (map (fun p => (fst p, py_round2 (snd p * 100))) preds)).
Proof.
  unfold recognize_sketch.
  destruct (let* g := pre x in pr g) as [preds|e]; [right|left]; eauto.
Qed.

(** C3 (counterexample): in recognition_service.py an input of an unsupported
    type makes [preprocess_image] raise [ValueError], and the response carries
    the candidate ("error", 100.0), not ("error", 1.0); and a loaded model
    whose service has no class names yields a successful response with an
    empty candidate list. *)
Lemma recognize_sketch_error_counterexample :
  success (RecognitionServicePy.recognize stub_lib softmax_service
             (RecognitionServicePy.RawOther "int")) = false /\
  top_predictions (RecognitionServicePy.recognize stub_lib softmax_service
             (RecognitionServicePy.RawOther "int")) = [("error", 100)] /\
  Qeq_bool 100 1 = false /\
  top_predictions (RecognitionServicePy.recognize stub_lib
     (RecognitionServicePy.mk_service (Some (fun _ => Ok [7 # 10; 3 # 10])) [] true)
     (RecognitionServicePy.RawPIL white28)) = [] /\
  success (RecognitionServicePy.recognize stub_lib
     (RecognitionServicePy.mk_service (Some (fun _ => Ok [7 # 10; 3 # 10])) [] true)
     (RecognitionServicePy.RawPIL white28)) = true.
Proof. vm_compute; repeat split. Qed.

(* ------------------------------------------------------------------------- *)
(** ** Python dicts as association lists *)

Lemma fold_inv {A B : Type} (P : A -> Prop) (f : A -> B -> A) (l : list B) (a : A) :
  (forall x b, In b l -> P x -> P (f x b)) -> P a -> P (fold_left f l a).
Proof.
  revert a; induction l as [|b l IH]; intros a Hf Ha; simpl; [exact Ha|].
  apply IH; [intros x b' Hb'; apply Hf; now right|apply Hf; [now left|exact Ha]].
Qed.

Section Dict.
Context {K V : Type} (eqk : K -> K -> bool).
Hypothesis eqk_spec : forall a b, eqk a b = true <-> a = b.

Lemma eqk_refl (a : K) : eqk a a = true.
Proof. now apply eqk_spec. Qed.

Lemma eqk_sym (a b : K) : eqk a b = eqk b a.
Proof.
  destruct (eqk a b) eqn:E1, (eqk b a) eqn:E2; auto.
  - apply eqk_spec in E1; subst; now rewrite eqk_refl in E2.
  - apply eqk_spec in E2; subst; now rewrite eqk_refl in E1.
Qed.

Lemma dict_get_cons (k k0 : K) (v0 : V) (d : list (K * V)) :
  Ensemble.dict_get eqk k ((k0, v0) :: d) =
    if eqk k k0 then Some v0 else Ensemble.dict_get eqk k d.
Proof. unfold Ensemble.dict_get; simpl; now destruct (eqk k k0). Qed.

Lemma dict_get_map_set (k k' : K) (v : V) (d : list (K * V)) :
  Ensemble.dict_get eqk k (map (fun kv => if eqk k' (fst kv) then (fst kv, v) else kv) d) =
  match Ensemble.dict_get eqk k d with
  | Some v0 => Some (if eqk k' k then v else v0)
  | None => None
  end.
Proof.
  induction d as [|[k0 v0] d IH]; [reflexivity|]; simpl.
  destruct (eqk k' k0) eqn:E; rewrite !dict_get_cons;
    destruct (eqk k k0) eqn:E2; auto.
  - apply eqk_spec in E2; subst; now rewrite E.
  - apply eqk_spec in E2; subst; now rewrite E.
Qed.

Lemma existsb_dict_get (k : K) (d : list (K * V)) :
  existsb (fun kv => eqk k (fst kv)) d =
  match Ensemble.dict_get eqk k d with Some _ => true | None => false end.
Proof.
  induction d as [|[k0 v0] d IH]; [reflexivity|].
  rewrite dict_get_cons; simpl; now destruct (eqk k k0).
Qed.

Lemma dict_get_app (k : K) (d d' : list (K * V)) :
  Ensemble.dict_get eqk k (app d d') =
  match Ensemble.dict_get eqk k d with
  | Some v => Some v
  | None => Ensemble.dict_get eqk k d'
  end.
Proof.
  induction d as [|[k0 v0] d IH]; [reflexivity|].
  simpl app; rewrite !dict_get_cons; now destruct (eqk k k0).
Qed.

Lemma dict_get_set (k k' : K) (v : V) (d : list (K * V)) :
  Ensemble.dict_get eqk k (Ensemble.dict_set eqk k' v d) =
  if eqk k k' then Some v else Ensemble.dict_get eqk k d.
Proof.
  unfold Ensemble.dict_set; rewrite existsb_dict_get.
  destruct (Ensemble.dict_get eqk k' d) eqn:E.
  - rewrite dict_get_map_set; destruct (eqk k k') eqn:Ek.
    + apply eqk_spec in Ek; subst; now rewrite E, eqk_refl.
    + rewrite eqk_sym in Ek; destruct (Ensemble.dict_get eqk k d); now rewrite ?Ek.
  - rewrite dict_get_app, dict_get_cons; destruct (eqk k k') eqn:Ek.
    + apply eqk_spec in Ek; subst; now rewrite E.
    + now destruct (Ensemble.dict_get eqk k d).
Qed.

Lemma dict_get_some_in (k : K) (v : V) (d : list (K * V)) :
  Ensemble.dict_get eqk k d = Some v -> In (k, v) d.
Proof.
  induction d as [|[k0 v0] d IH]; [discriminate|]; rewrite dict_get_cons.
  destruct (eqk k k0) eqn:E.
  - apply eqk_spec in E; subst; intros H; injection H as <-; now left.
  - intros H; right; now apply IH.
Qed.

Lemma dict_get_in_nodup (k : K) (v : V) (d : list (K * V)) :
  NoDup (map fst d) -> In (k, v) d -> Ensemble.dict_get eqk k d = Some v.
Proof.
  induction d as [|[k0 v0] d IH]; [intros _ []|]; intros Hnd Hin.
  simpl in Hnd; inversion Hnd as [|? ? Hnot Hnd']; subst.
  rewrite dict_get_cons; destruct Hin as [Heq|Hin].
  - injection Heq as -> ->; now rewrite eqk_refl.
  - destruct (eqk k k0) eqn:E; [|now apply IH].
    apply eqk_spec in E; subst; exfalso; apply Hnot.
    apply (in_map fst) in Hin; exact Hin.
Qed.

Lemma dict_get_in_some (k : K) (v : V) (d : list (K * V)) :
  In (k, v) d -> exists w, Ensemble.dict_get eqk k d = Some w.
Proof.
  induction d as [|[k0 v0] d IH]; [intros []|]; intros Hin; rewrite dict_get_cons.
  destruct (eqk k k0) eqn:E; [eauto|].
  destruct Hin as [Heq|Hin]; [|now apply IH].
  injection Heq as -> _; now rewrite eqk_refl in E.
Qed.

Lemma dict_set_nodup (k : K) (v : V) (d : list (K * V)) :
  NoDup (map fst d) -> NoDup (map fst (Ensemble.dict_set eqk k v d)).
Proof.
  intros Hnd; unfold Ensemble.dict_set; rewrite existsb_dict_get.
  destruct (Ensemble.dict_get eqk k d) eqn:E.
  - rewrite map_map.
    replace (map (fun x => fst (if eqk k (fst x) then (fst x, v) else x)) d) with (map fst d);
      [exact Hnd|].
    apply map_ext; intros [a b]; simpl; now destruct (eqk k a).
  - rewrite map_app; simpl; apply NoDup_app; [exact Hnd|repeat constructor; intros []|].
    intros x Hx [<-|[]]; apply in_map_iff in Hx; destruct Hx as ([a b] & Ha & Hab).
    simpl in Ha; subst a.
    destruct (dict_get_in_some k b d Hab) as [w Hw]; congruence.
Qed.
End Dict.

(* ------------------------------------------------------------------------- *)
(** ** Ensemble routing *)

Lemma key_eqb_spec (a b : string * string) : Ensemble.key_eqb a b = true <-> a = b.
Proof.
  destruct a as [a1 a2], b as [b1 b2]; unfold Ensemble.key_eqb; simpl.
  rewrite andb_true_iff, !String.eqb_eq; split; [intros [-> ->]; reflexivity|].
  intros H; injection H as -> ->; auto.
Qed.

Lemma category_model_map_specialized (st : Ensemble.service) (label : string) :
  In label (Ensemble.class_names_of st "specialized") ->
  Ensemble.dict_get String.eqb label (Ensemble.category_model_map st) = Some "specialized".
Proof.
  intros Hl; unfold Ensemble.category_model_map; cbv zeta.
  apply fold_inv.
  - intros d c _ Hd; destruct (existsb (String.eqb c) _) eqn:E; [exact Hd|].
    rewrite (dict_get_set String.eqb String.eqb_eq).
    destruct (String.eqb label c) eqn:E2; [|exact Hd].
    apply String.eqb_eq in E2; subst c; exfalso.
    rewrite <- Bool.not_true_iff_false in E; apply E, existsb_exists.
    exists label; split; [exact Hl|apply String.eqb_refl].
  - generalize (@nil (string * string)).
    induction (Ensemble.class_names_of st "specialized") as [|c l IH]; [destruct Hl|].
    intros d; simpl; destruct Hl as [<-|Hl].
    + apply fold_inv; [|rewrite (dict_get_set String.eqb String.eqb_eq), String.eqb_refl; reflexivity].
      intros x b _ Hx; rewrite (dict_get_set String.eqb String.eqb_eq).
      now destruct (String.eqb c b).
    + now apply IH.
Qed.

Lemma all_predictions_nodup (st : Ensemble.service) (results : string -> list pred) :
  NoDup (map fst (Ensemble.all_predictions st results)).
Proof.
  unfold Ensemble.all_predictions; apply fold_inv; [|constructor].
  intros d m _ Hd; apply fold_inv; [|exact Hd].
  intros x p _ Hx; now apply (dict_set_nodup Ensemble.key_eqb key_eqb_spec).
Qed.

Lemma all_predictions_specialized (st : Ensemble.service) (results : string -> list pred)
    (label : string) (c : Q) :
  NoDup (Ensemble.models st) -> In "specialized" (Ensemble.models st) ->
  In (label, c) (results "specialized") -> NoDup (map fst (results "specialized")) ->
  Ensemble.dict_get Ensemble.key_eqb ("specialized", label)
    (Ensemble.all_predictions st results) = Some c.
Proof.
  intros Hnd Hin Hlc Hnd2; unfold Ensemble.all_predictions.
  destruct (in_split _ _ Hin) as (pre & post & Heq).
  assert (Hpost : ~ In "specialized" post).
  { rewrite Heq in Hnd; intros H; apply (NoDup_remove_2 _ _ _ Hnd), in_or_app; now right. }
  rewrite Heq, fold_left_app; simpl.
  apply fold_inv.
  - intros d m Hm Hd; apply fold_inv; [|exact Hd].
    intros x p _ Hx; rewrite (dict_get_set Ensemble.key_eqb key_eqb_spec).
    destruct (Ensemble.key_eqb _ _) eqn:E; [|exact Hx].
    apply key_eqb_spec in E; injection E as <- _; contradiction.
  - destruct (in_split _ _ Hlc) as (rpre & rpost & Hr).
    assert (Hrpost : ~ In label (map fst rpost)).
    { rewrite Hr, map_app in Hnd2; simpl in Hnd2; intros H.
      apply (NoDup_remove_2 _ _ _ Hnd2), in_or_app; now right. }
    rewrite Hr, fold_left_app; simpl.
    apply fold_inv.
    + intros x p Hp Hx; rewrite (dict_get_set Ensemble.key_eqb key_eqb_spec).
      destruct (Ensemble.key_eqb _ _) eqn:E; [|exact Hx].
      apply key_eqb_spec in E; injection E as E; subst label.
      exfalso; apply Hrpost, in_map, Hp.
    + rewrite (dict_get_set Ensemble.key_eqb key_eqb_spec).
      now rewrite (proj2 (key_eqb_spec _ _) eq_refl).
Qed.

Lemma combine_step_nodup (cmap : list (string * string)) (d : list (string * Q))
    (e : (string * string) * Q) :
  NoDup (map fst d) -> NoDup (map fst (Ensemble.combine_step cmap d e)).
Proof.
  intros Hd; destruct e as [[m cls] v]; unfold Ensemble.combine_step.
  destruct (Ensemble.dict_get String.eqb cls cmap);
    [destruct (_ || _)%bool; [|destruct (String.eqb m _)]
    |destruct (Ensemble.dict_get String.eqb cls d) as [old|]; [destruct (qltb old v)|]];
    try exact Hd; apply (dict_set_nodup String.eqb String.eqb_eq); exact Hd.
Qed.

Lemma combined_predictions_nodup (st : Ensemble.service) (results : string -> list pred) :
  NoDup (map fst (Ensemble.combined_predictions st results)).
Proof.
  unfold Ensemble.combined_predictions; apply fold_inv; [|constructor].
  intros d e _ Hd; now apply combine_step_nodup.
Qed.

Lemma combined_predictions_specialized (st : Ensemble.service)
    (results : string -> list pred) (label : string) (c : Q) :
  NoDup (Ensemble.models st) -> In "specialized" (Ensemble.models st) ->
  In label (Ensemble.class_names_of st "specialized") ->
  In (label, c) (results "specialized") -> NoDup (map fst (results "specialized")) ->
  Ensemble.dict_get String.eqb label (Ensemble.combined_predictions st results) = Some c.
Proof.
  intros Hnd Hin Hl Hlc Hnd2.
  pose proof (category_model_map_specialized st label Hl) as Hcm.
  pose proof (all_predictions_specialized st results label c Hnd Hin Hlc Hnd2) as Hget.
  pose proof (all_predictions_nodup st results) as Hapnd.
  apply (dict_get_some_in Ensemble.key_eqb key_eqb_spec) in Hget.
  unfold Ensemble.combined_predictions.
  destruct (in_split _ _ Hget) as (pre & post & Heq); rewrite Heq in Hapnd |- *.
  assert (Hpost : ~ In ("specialized", label) (map fst post)).
  { rewrite map_app in Hapnd; simpl in Hapnd; intros H.
    apply (NoDup_remove_2 _ _ _ Hapnd), in_or_app; now right. }
  rewrite fold_left_app; simpl.
  apply fold_inv.
  - intros d [[m cls] v] Hp Hd; unfold Ensemble.combine_step.
    destruct (String.eqb label cls) eqn:El.
    + apply String.eqb_eq in El; subst cls; rewrite Hcm.
      assert (Hm : String.eqb m "specialized" = false).
      { apply String.eqb_neq; intros ->; apply Hpost.
        apply (in_map fst) in Hp; exact Hp. }
      rewrite Hm, (existsb_dict_get String.eqb), Hd; exact Hd.
    + destruct (Ensemble.dict_get String.eqb cls _);
        [destruct (_ || _)%bool; [|destruct (String.eqb m _)]
        |destruct (Ensemble.dict_get String.eqb cls d) as [old|]; [destruct (qltb old v)|]];
        try exact Hd; rewrite (dict_get_set String.eqb String.eqb_eq), El; exact Hd.
  - unfold Ensemble.combine_step; rewrite Hcm; simpl.
    rewrite (dict_get_set String.eqb String.eqb_eq); now rewrite ?String.eqb_refl.
Qed.

(** C2: let the ensemble be loaded, with the model keys distinct and
    "specialized" among them, and let [label] be in the specialized model's
    class names.  If the specialized model's own result list (its top 10)
    holds [(label, c)], with its class names distinct, then the combined
    dictionary maps [label] to exactly [c], whatever the other models scored;
    and whenever [label] is in the returned top 10, its confidence is [c]. *)
Theorem ensemble_specialized_preference (L : Lib) (st : Ensemble.service)
    (outputs : string -> grid -> res (list Q)) (img : grid) (label : string) (c : Q) :
  Ensemble.model_loaded st = true ->
  NoDup (Ensemble.models st) -> In "specialized" (Ensemble.models st) ->
  In label (Ensemble.class_names_of st "specialized") ->
  In (label, c) (Ensemble.get_predictions_for_model st (fun m => outputs m img) "specialized") ->
  NoDup (map fst (Ensemble.get_predictions_for_model st (fun m => outputs m img) "specialized")) ->
  Ensemble.dict_get String.eqb label
    (Ensemble.combined_predictions st (Ensemble.get_predictions_for_model st (fun m => outputs m img)))
    = Some c /\
  (forall c', In (label, c') (Ensemble.predict L st outputs img) -> c' = c).
Proof.
  intros Hld Hnd Hin Hl Hlc Hnd2.
  pose proof (combined_predictions_specialized st _ label c Hnd Hin Hl Hlc Hnd2) as Hc.
  split; [exact Hc|].
  intros c' Hc'; unfold Ensemble.predict in Hc'; rewrite Hld in Hc'.
  destruct (Ensemble.models st) as [|m ms] eqn:Em; [destruct Hin|].
  cbn [negb orb Nat.eqb List.length] in Hc'.
  apply in_firstn_l, sort_desc_in in Hc'.
  rewrite (dict_get_in_nodup String.eqb String.eqb_eq label c' _
             (combined_predictions_nodup st _) Hc') in Hc.
  now injection Hc.
Qed.

Lemma ensemble_specialized_preference_witness :
  Ensemble.model_loaded ens_service = true /\
  NoDup (Ensemble.models ens_service) /\ In "specialized" (Ensemble.models ens_service) /\
  In "apple" (Ensemble.class_names_of ens_service "specialized") /\
  In ("apple", 5 # 10) (Ensemble.get_predictions_for_model ens_service
                          (fun m => ens_outputs ens_high_apple m []) "specialized") /\
  NoDup (map fst (Ensemble.get_predictions_for_model ens_service
                    (fun m => ens_outputs ens_high_apple m []) "specialized")) /\
  (Ensemble.dict_get String.eqb "apple"
     (Ensemble.combined_predictions ens_service
        (Ensemble.get_predictions_for_model ens_service (fun m => ens_outputs ens_high_apple m [])))
     = Some (5 # 10) /\
   (forall c', In ("apple", c') (Ensemble.predict stub_lib ens_service (ens_outputs ens_high_apple) [])
               -> c' = 5 # 10)).
Proof.
  assert (H1 : NoDup (Ensemble.models ens_service)).
  { vm_compute; repeat constructor; simpl; intuition discriminate. }
  assert (H2 : In "specialized" (Ensemble.models ens_service)) by (vm_compute; auto).
  assert (H3 : In "apple" (Ensemble.class_names_of ens_service "specialized"))
    by (vm_compute; auto 20).
  assert (H4 : In ("apple", 5 # 10) (Ensemble.get_predictions_for_model ens_service
                 (fun m => ens_outputs ens_high_apple m []) "specialized"))
    by (vm_compute; auto 20).
  assert (H5 : NoDup (map fst (Ensemble.get_predictions_for_model ens_service
                 (fun m => ens_outputs ens_high_apple m []) "specialized"))).
  { vm_compute; repeat constructor; simpl; intuition discriminate. }
  split; [reflexivity|]; do 5 (split; [assumption|]).
  exact (ensemble_specialized_preference stub_lib ens_service (ens_outputs ens_high_apple) []
           "apple" (5 # 10) eq_refl H1 H2 H3 H4 H5).
Defined.

(* ------------------------------------------------------------------------- *)
(** ** Sorting: order and permutation facts for [sort_desc] and [argsort] *)

Lemma qltb_true (a b : Q) : qltb a b = true -> a < b.
Proof. unfold qltb; destruct (Qlt_le_dec a b); congruence. Qed.

Lemma qltb_false (a b : Q) : qltb a b = false -> b <= a.
Proof. unfold qltb; destruct (Qlt_le_dec a b); congruence. Qed.

Lemma ss_app {A : Type} (R : A -> A -> Prop) (l1 l2 : list A) :
  StronglySorted R l1 -> StronglySorted R l2 ->
  (forall x y, In x l1 -> In y l2 -> R x y) -> StronglySorted R (l1 ++ l2).
Proof.
  induction l1 as [|a l1 IH]; intros H1 H2 H; simpl; [exact H2|].
  apply StronglySorted_inv in H1; destruct H1 as [H1 Ha].
  constructor; [apply IH; auto; intros; apply H; simpl; auto|].
  apply Forall_forall; intros y Hy; apply in_app_or in Hy; destruct Hy as [Hy|Hy].
  - exact (proj1 (Forall_forall _ _) Ha y Hy).
  - apply H; simpl; auto.
Qed.

Lemma ss_rev {A : Type} (R : A -> A -> Prop) (l : list A) :
  StronglySorted R l -> StronglySorted (fun a b => R b a) (rev l).
Proof.
  induction l as [|a l IH]; intros H; simpl; [constructor|].
  apply StronglySorted_inv in H; destruct H as [H Ha].
  apply ss_app; [now apply IH|repeat constructor|].
  intros x y Hx [<-|[]]; apply in_rev in Hx.
  exact (proj1 (Forall_forall _ _) Ha x Hx).
Qed.

Lemma ss_firstn {A : Type} (R : A -> A -> Prop) (n : nat) (l : list A) :
  StronglySorted R l -> StronglySorted R (firstn n l).
Proof.
  revert l; induction n as [|n IH]; intros [|a l] H; simpl; try constructor.
  - apply StronglySorted_inv in H; destruct H as [H Ha]; now apply IH.
  - apply StronglySorted_inv in H; destruct H as [H Ha].
    apply Forall_forall; intros y Hy; apply in_firstn_l in Hy.
    exact (proj1 (Forall_forall _ _) Ha y Hy).
Qed.

Lemma ss_flat_map {A B : Type} (R : A -> A -> Prop) (R' : B -> B -> Prop)
    (f : A -> list B) (l : list A) :
  StronglySorted R l -> (forall x, StronglySorted R' (f x)) ->
  (forall x y a b, R x y -> In a (f x) -> In b (f y) -> R' a b) ->
  StronglySorted R' (flat_map f l).
Proof.
  induction l as [|x l IH]; intros H Hf HR; simpl; [constructor|].
  apply StronglySorted_inv in H; destruct H as [H Hx].
  apply ss_app; [apply Hf|now apply IH|].
  intros a b Ha Hb; apply in_flat_map in Hb; destruct Hb as (y & Hy & Hb).
  exact (HR x y a b (proj1 (Forall_forall _ _) Hx y Hy) Ha Hb).
Qed.

Lemma insert_desc_sorted {A : Type} (k : A -> Q) (x : A) (l : list A) :
  StronglySorted (fun a b => k b <= k a) l ->
  StronglySorted (fun a b => k b <= k a) (insert_desc k x l).
Proof.
  induction l as [|y l IH]; intros H; simpl; [repeat constructor|].
  apply StronglySorted_inv in H as H'; destruct H' as [Hl Hy].
  destruct (qltb (k y) (k x)) eqn:E.
  - apply qltb_true in E; constructor; [exact H|].
    constructor; [now apply Qlt_le_weak|].
    apply Forall_forall; intros z Hz.
    apply Qle_trans with (k y); [exact (proj1 (Forall_forall _ _) Hy z Hz)|now apply Qlt_le_weak].
  - apply qltb_false in E; constructor; [now apply IH|].
    apply Forall_forall; intros z Hz; apply insert_desc_in in Hz; destruct Hz as [<-|Hz];
      [exact E|exact (proj1 (Forall_forall _ _) Hy z Hz)].
Qed.

Lemma insert_desc_perm {A : Type} (k : A -> Q) (x : A) (l : list A) :
  Permutation (insert_desc k x l) (x :: l).
Proof.
  induction l as [|y l IH]; simpl; [reflexivity|].
  destruct (qltb (k y) (k x)); [reflexivity|].
  rewrite IH; apply perm_swap.
Qed.

Lemma sort_desc_sorted {A : Type} (k : A -> Q) (l : list A) :
  StronglySorted (fun a b => k b <= k a) (sort_desc k l).
Proof.
  unfold sort_desc; apply fold_inv; [|constructor].
  intros acc x _ H; now apply insert_desc_sorted.
Qed.

Lemma sort_desc_perm {A : Type} (k : A -> Q) (l : list A) :
  Permutation (sort_desc k l) l.
Proof.
  unfold sort_desc.
  assert (G : forall acc, Permutation (fold_left (fun acc x => insert_desc k x acc) l acc)
                                      (rev l ++ acc)).
  { induction l as [|x l IH]; intros acc; simpl; [reflexivity|].
    rewrite IH, insert_desc_perm, <- app_assoc; simpl.
    apply Permutation_app_head, Permutation_refl. }
  rewrite G, app_nil_r; apply Permutation_sym, Permutation_rev.
Qed.

Lemma insert_asc_in (k : nat -> Q) (x y : nat) (l : list nat) :
  In y (insert_asc k x l) <-> x = y \/ In y l.
Proof.
  induction l as [|z l IH]; simpl; [tauto|].
  destruct (qltb (k x) (k z)); simpl; [tauto|].
  rewrite IH; tauto.
Qed.

Lemma insert_asc_sorted (k : nat -> Q) (x : nat) (l : list nat) :
  StronglySorted (fun a b => k a <= k b) l ->
  StronglySorted (fun a b => k a <= k b) (insert_asc k x l).
Proof.
  induction l as [|y l IH]; intros H; simpl; [repeat constructor|].
  apply StronglySorted_inv in H as H'; destruct H' as [Hl Hy].
  destruct (qltb (k x) (k y)) eqn:E.
  - apply qltb_true in E; constructor; [exact H|].
    constructor; [now apply Qlt_le_weak|].
    apply Forall_forall; intros z Hz.
    apply Qle_trans with (k y); [now apply Qlt_le_weak|exact (proj1 (Forall_forall _ _) Hy z Hz)].
  - apply qltb_false in E; constructor; [now apply IH|].
    apply Forall_forall; intros z Hz; apply insert_asc_in in Hz; destruct Hz as [<-|Hz];
      [exact E|exact (proj1 (Forall_forall _ _) Hy z Hz)].
Qed.

Lemma insert_asc_perm (k : nat -> Q) (x : nat) (l : list nat) :
  Permutation (insert_asc k x l) (x :: l).
Proof.
  induction l as [|y l IH]; simpl; [reflexivity|].
  destruct (qltb (k x) (k y)); [reflexivity|].
  rewrite IH; apply perm_swap.
Qed.

Lemma argsort_sorted (v : list Q) :
  StronglySorted (fun a b => nth a v 0 <= nth b v 0) (argsort v).
Proof.
  unfold argsort; apply fold_inv; [|constructor].
  intros acc x _ H; now apply (insert_asc_sorted (fun j => nth j v 0)).
Qed.

Lemma argsort_perm (v : list Q) : Permutation (argsort v) (seq 0 (List.length v)).
Proof.
  unfold argsort; generalize (seq 0 (List.length v)) as l.
  assert (G : forall l acc, Permutation
     (fold_left (fun acc i => insert_asc (fun j => nth j v 0) i acc) l acc) (rev l ++ acc)).
  { induction l as [|x l IH]; intros acc; simpl; [reflexivity|].
    rewrite IH, insert_asc_perm, <- app_assoc; simpl.
    apply Permutation_app_head, Permutation_refl. }
  intros l; rewrite G, app_nil_r; apply Permutation_sym, Permutation_rev.
Qed.

Lemma perm_filter_length {A : Type} (P : A -> bool) (l l' : list A) :
  Permutation l l' -> List.length (filter P l) = List.length (filter P l').
Proof.
  induction 1 as [|x l l' _ IH|x y l|l l' l'' _ IH1 _ IH2]; simpl.
  - reflexivity.
  - destruct (P x); simpl; congruence.
  - destruct (P x), (P y); reflexivity.
  - congruence.
Qed.

Lemma sorted_prefix_rank (v : list Q) (k i : nat) (l : list nat) :
  StronglySorted (fun a b => nth b v 0 <= nth a v 0) l -> In i (firstn k l) ->
  Nat.lt (List.length (filter (fun j => qltb (nth i v 0) (nth j v 0)) l)) k.
Proof.
  revert k; induction l as [|a l IH]; intros k H Hi; [destruct k; destruct Hi|].
  destruct k as [|k]; [destruct Hi|].
  apply StronglySorted_inv in H; destruct H as [H Ha]; simpl in Hi |- *.
  destruct Hi as [<-|Hi].
  - assert (E : filter (fun j => qltb (nth a v 0) (nth j v 0)) l = []).
    { rewrite Forall_forall in Ha.
      assert (G : forall l', (forall y, In y l' -> nth y v 0 <= nth a v 0) ->
                    filter (fun j => qltb (nth a v 0) (nth j v 0)) l' = []).
      { induction l' as [|b l' IHl]; intros Hl'; [reflexivity|]; simpl.
        destruct (qltb (nth a v 0) (nth b v 0)) eqn:E.
        - apply qltb_true in E; specialize (Hl' b (or_introl eq_refl)); qcontra.
        - apply IHl; intros y Hy; apply Hl'; now right. }
      apply G, Ha. }
    destruct (qltb (nth a v 0) (nth a v 0)) eqn:E2;
      [apply qltb_true, Qlt_irrefl in E2; destruct E2|].
    rewrite E; simpl; lia.
  - specialize (IH k H Hi); destruct (qltb _ _); simpl; lia.
Qed.

(** The shape of the model branches of the three services: the score indices
    ranked by [np.argsort(...)[-k:][::-1]], out-of-range labels skipped. *)
Lemma topk_results (names : nat -> string) (n k : nat) (v : list Q) :
  let r := flat_map (fun i => if Nat.ltb i n then [(names i, nth i v 0)] else [])
                    (firstn k (rev (argsort v))) in
  (List.length r <= k)%nat /\
  ((List.length v <= n)%nat -> List.length r = Nat.min k (List.length v)) /\
  StronglySorted (fun a b : pred => snd b <= snd a) r /\
  forall p, In p r -> exists i, (i < n)%nat /\ (i < List.length v)%nat /\
    p = (names i, nth i v 0) /\
    Nat.lt (List.length (filter (fun j => qltb (nth i v 0) (nth j v 0))
                                (seq 0 (List.length v)))) k.
Proof.
  cbv zeta.
  assert (Hp : Permutation (rev (argsort v)) (seq 0 (List.length v)))
    by (rewrite <- argsort_perm; apply Permutation_sym, Permutation_rev).
  assert (Hs := ss_rev _ _ (argsort_sorted v)); cbv beta in Hs.
  assert (Hlt : forall i, In i (rev (argsort v)) -> (i < List.length v)%nat).
  { intros i Hi; apply (Permutation_in _ Hp), in_seq in Hi; lia. }
  split; [|split; [|split]].
  - rewrite length_flat_map.
    assert (G : forall l : list nat,
      Nat.le (list_sum (map (fun i => List.length
                (if Nat.ltb i n then [(names i, nth i v 0)] else [])) l)) (List.length l)).
    { induction l as [|i l IH]; simpl; [lia|]; destruct (Nat.ltb i n); simpl; lia. }
    rewrite G, length_firstn; lia.
  - intros Hn; rewrite length_flat_map.
    transitivity (List.length (firstn k (rev (argsort v)))).
    + assert (Hb : forall i, In i (firstn k (rev (argsort v))) -> (i < n)%nat)
        by (intros i Hi; apply in_firstn_l, Hlt in Hi; lia).
      induction (firstn k (rev (argsort v))) as [|i l IH]; [reflexivity|].
      simpl; rewrite (proj2 (Nat.ltb_lt i n)) by (apply Hb; now left); simpl.
      rewrite IH; [reflexivity|intros j Hj; apply Hb; now right].
    + now rewrite length_firstn, (Permutation_length Hp), length_seq.
  - apply (ss_flat_map (fun a b => nth b v 0 <= nth a v 0)); [now apply ss_firstn|..].
    + intros i; destruct (Nat.ltb i n); repeat constructor.
    + intros x y a b Hxy Ha Hb.
      destruct (Nat.ltb x n); [|destruct Ha]; destruct (Nat.ltb y n); [|destruct Hb].
      destruct Ha as [<-|[]], Hb as [<-|[]]; exact Hxy.
  - intros p Hp'; apply in_flat_map in Hp'; destruct Hp' as (i & Hi & Hpi).
    destruct (Nat.ltb i n) eqn:E; [|destruct Hpi]; destruct Hpi as [<-|[]].
    exists i; split; [now apply Nat.ltb_lt|split; [now apply Hlt, (in_firstn_l k)|split; [reflexivity|]]].
    rewrite <- (perm_filter_length _ _ _ Hp).
    now apply sorted_prefix_rank.
Qed.

(* ------------------------------------------------------------------------- *)
(** ** The model branches: top-k ranked results *)

(** The model branch of recognition.py's [predict] keeps at most 5 results
    (exactly [min 5 (len predictions)] when every score index has a label), in
    non-increasing confidence order; each is the label prefix before '_' of a
    class [i] with its score [predictions[i]], and fewer than 5 scores are
    strictly higher. *)
Theorem recognition_model_results_top5 (st : Recognition.service) (v : list Q) :
  let r := Recognition.model_results st v in
  (List.length r <= 5)%nat /\
  ((List.length v <= List.length (Recognition.class_names st))%nat ->
     List.length r = Nat.min 5 (List.length v)) /\
  StronglySorted (fun a b : pred => snd b <= snd a) r /\
  forall p, In p r -> exists i, (i < List.length (Recognition.class_names st))%nat /\
    (i < List.length v)%nat /\
    p = (split_underscore_0 (nth i (Recognition.class_names st) ""), nth i v 0) /\
    Nat.lt (List.length (filter (fun j => qltb (nth i v 0) (nth j v 0))
                                (seq 0 (List.length v)))) 5.
Proof.
  exact (topk_results (fun i => split_underscore_0 (nth i (Recognition.class_names st) ""))
                      (List.length (Recognition.class_names st)) 5 v).
Qed.

(** The model branch of recognition_service.py's [predict] keeps at most 10
    results (exactly [min 10 (len predictions)] when every score index has a
    label), in non-increasing confidence order; each is a class [i] with its
    score [predictions[i]], and fewer than 10 scores are strictly higher. *)
Theorem recognition_service_model_results_top10 (st : RecognitionServicePy.service)
    (v : list Q) :
  let r := RecognitionServicePy.model_results st v in
  (List.length r <= 10)%nat /\
  ((List.length v <= List.length (RecognitionServicePy.class_names st))%nat ->
     List.length r = Nat.min 10 (List.length v)) /\
  StronglySorted (fun a b : pred => snd b <= snd a) r /\
  forall p, In p r -> exists i, (i < List.length (RecognitionServicePy.class_names st))%nat /\
    (i < List.length v)%nat /\
    p = (nth i (RecognitionServicePy.class_names st) "", nth i v 0) /\
    Nat.lt (List.length (filter (fun j => qltb (nth i v 0) (nth j v 0))
                                (seq 0 (List.length v)))) 10.
Proof.
  exact (topk_results (fun i => nth i (RecognitionServicePy.class_names st) "")
                      (List.length (RecognitionServicePy.class_names st)) 10 v).
Qed.

(** [_get_predictions_for_model] returns no prediction for a model that is not
    loaded or that raises; otherwise at most 10, in non-increasing confidence
    order, each a class [i] of the model's metadata with its score
    [predictions[i]], and fewer than 10 scores strictly higher. *)
Theorem ensemble_model_predictions_top10 (st : Ensemble.service)
    (outputs : string -> res (list Q)) (m : string) :
  (~ In m (Ensemble.models st) -> Ensemble.get_predictions_for_model st outputs m = []) /\
  (forall e, outputs m = Err e -> Ensemble.get_predictions_for_model st outputs m = []) /\
  (forall v, In m (Ensemble.models st) -> outputs m = Ok v ->
   let r := Ensemble.get_predictions_for_model st outputs m in
   let names := Ensemble.class_names_of st m in
   (List.length r <= 10)%nat /\
   StronglySorted (fun a b : pred => snd b <= snd a) r /\
   forall p, In p r -> exists i, (i < List.length names)%nat /\ (i < List.length v)%nat /\
     p = (nth i names "", nth i v 0) /\
     Nat.lt (List.length (filter (fun j => qltb (nth i v 0) (nth j v 0))
                                 (seq 0 (List.length v)))) 10).
Proof.
  unfold Ensemble.get_predictions_for_model.
  split; [|split].
  - intros Hm; destruct (existsb (String.eqb m) (Ensemble.models st)) eqn:E; [|reflexivity].
    exfalso; apply Hm; apply existsb_exists in E; destruct E as (x & Hx & Hxm).
    apply String.eqb_eq in Hxm; now subst x.
  - intros e He; destruct (negb _); [reflexivity|now rewrite He].
  - intros v Hm Hv; cbv zeta.
    assert (E : existsb (String.eqb m) (Ensemble.models st) = true)
      by (apply existsb_exists; exists m; split; [exact Hm|apply String.eqb_refl]).
    rewrite E, Hv; simpl negb; cbv iota.
    destruct (topk_results (fun i => nth i (Ensemble.class_names_of st m) "")
                (List.length (Ensemble.class_names_of st m)) 10 v) as (H1 & _ & H3 & H4).
    exact (conj H1 (conj H3 H4)).
Qed.

Lemma ss_map {A B : Type} (R : A -> A -> Prop) (R' : B -> B -> Prop) (f : A -> B) (l : list A) :
  StronglySorted R l -> (forall a b, R a b -> R' (f a) (f b)) -> StronglySorted R' (map f l).
Proof.
  induction l as [|a l IH]; intros H Hf; simpl; [constructor|].
  apply StronglySorted_inv in H; destruct H as [H Ha]; constructor; [now apply IH|].
  apply Forall_forall; intros y Hy; apply in_map_iff in Hy; destruct Hy as (b & <- & Hb).
  apply Hf; exact (proj1 (Forall_forall _ _) Ha b Hb).
Qed.

Lemma nodup_firstn {A : Type} (n : nat) (l : list A) : NoDup l -> NoDup (firstn n l).
Proof.
  intros H; rewrite <- (firstn_skipn n l) in H; now apply NoDup_app_remove_r in H.
Qed.

Lemma combine_map_fst {A B : Type} (a : list A) (b : list B) :
  map fst (combine a b) = firstn (List.length b) a.
Proof.
  revert b; induction a as [|x a IH]; intros [|y b]; simpl; try reflexivity.
  now rewrite IH.
Qed.

Lemma dedup_spec (l : list string) :
  NoDup (Ensemble.dedup l) /\ forall x, In x (Ensemble.dedup l) <-> In x l.
Proof.
  unfold Ensemble.dedup.
  assert (G : forall acc, NoDup acc ->
    NoDup (fold_left (fun acc c => if existsb (String.eqb c) acc then acc else app acc [c]) l acc)
    /\ forall x, In x (fold_left (fun acc c => if existsb (String.eqb c) acc then acc
                                               else app acc [c]) l acc) <-> In x l \/ In x acc).
  { induction l as [|c l IH]; intros acc Hacc; simpl; [tauto|].
    destruct (existsb (String.eqb c) acc) eqn:E.
    - destruct (IH acc Hacc) as [H1 H2]; split; [exact H1|intros x; rewrite H2].
      apply existsb_exists in E; destruct E as (y & Hy & Hcy); apply String.eqb_eq in Hcy; subst y.
      split; [tauto|intros [[<-|H]|H]; tauto].
    - assert (Hn : NoDup (acc ++ [c])).
      { apply NoDup_app; [exact Hacc|repeat constructor; intros []|].
        intros x Hx [<-|[]]; rewrite <- Bool.not_true_iff_false in E; apply E, existsb_exists.
        exists c; split; [exact Hx|apply String.eqb_refl]. }
      destruct (IH _ Hn) as [H1 H2]; split; [exact H1|intros x; rewrite H2, in_app_iff].
      simpl; split; [intros [H|[H|[<-|[]]]]; tauto|intros [[<-|H]|H]; tauto]. }
  destruct (G [] (NoDup_nil _)) as [H1 H2]; split; [exact H1|intros x; rewrite H2; simpl; tauto].
Qed.

Lemma topk_results_nodup (names : nat -> string) (n k : nat) (v : list Q) :
  (forall i j, (i < n)%nat -> (j < n)%nat -> names i = names j -> i = j) ->
  NoDup (map fst (flat_map (fun i => if Nat.ltb i n then [(names i, nth i v 0)] else [])
                           (firstn k (rev (argsort v))))).
Proof.
  intros Hinj.
  assert (Hnd : NoDup (firstn k (rev (argsort v)))).
  { apply nodup_firstn, (Permutation_NoDup (l := seq 0 (List.length v))); [|apply seq_NoDup].
    rewrite <- argsort_perm; apply Permutation_rev. }
  induction (firstn k (rev (argsort v))) as [|i l IH]; simpl; [constructor|].
  apply NoDup_cons_iff in Hnd; destruct Hnd as [Hi Hnd].
  destruct (Nat.ltb i n) eqn:E; simpl; [|now apply IH].
  constructor; [|now apply IH].
  intros Hin; apply in_map_iff in Hin; destruct Hin as ([c x] & Hc & Hin); simpl in Hc.
  apply in_flat_map in Hin; destruct Hin as (j & Hj & Hin).
  destruct (Nat.ltb j n) eqn:E2; [|destruct Hin]; destruct Hin as [Hin|[]].
  injection Hin as Hn _; subst c.
  apply Nat.ltb_lt in E, E2; rewrite (Hinj j i E2 E Hn) in Hj; contradiction.
Qed.

Lemma sorted_results_nodup (n : nat) (l : list pred) :
  NoDup (map fst l) ->
  NoDup (map fst (firstn n (sort_desc snd l))) /\
  StronglySorted (fun a b : pred => snd b <= snd a) (firstn n (sort_desc snd l)) /\
  (List.length (firstn n (sort_desc snd l)) <= n)%nat.
Proof.
  intros H; split; [|split].
  - rewrite <- firstn_map; apply nodup_firstn.
    apply (Permutation_NoDup (l := map fst l)); [|exact H].
    apply Permutation_map, Permutation_sym, sort_desc_perm.
  - apply ss_firstn, sort_desc_sorted.
  - rewrite length_firstn; lia.
Qed.

Lemma nth_injective (l : list string) :
  NoDup l -> forall i j, (i < List.length l)%nat -> (j < List.length l)%nat ->
  nth i l "" = nth j l "" -> i = j.
Proof. intros H; exact (proj1 (NoDup_nth l "") H). Qed.

(* ------------------------------------------------------------------------- *)
(** ** The services' [predict] results *)

(** recognition_service.py's [predict] raises on an empty image (its debug
    line reads [processed_image.min()]); otherwise it returns at most 10
    candidates, in non-increasing confidence order, each labelled with one of
    the service's class names, and with distinct labels when the class names
    are distinct. *)
Theorem recognition_service_predict_ranked (L : Lib) (st : RecognitionServicePy.service)
    (img : grid) :
  (elems img = [] -> exists e, RecognitionServicePy.predict L st img = Err e) /\
  forall r, RecognitionServicePy.predict L st img = Ok r ->
    (List.length r <= 10)%nat /\
    StronglySorted (fun a b : pred => snd b <= snd a) r /\
    (forall p, In p r -> In (fst p) (RecognitionServicePy.class_names st)) /\
    (NoDup (RecognitionServicePy.class_names st) -> NoDup (map fst r)).
Proof.
  unfold RecognitionServicePy.predict; split.
  - intros He; unfold arr_min; rewrite He; simpl; eexists; reflexivity.
  - intros r Hr; destruct (arr_min img) as [mn|e]; [|discriminate]; simpl in Hr.
    set (cn := RecognitionServicePy.class_names st) in *.
    assert (Hfb : forall r, r = RecognitionServicePy.predict_fallback L st img ->
      (List.length r <= 10)%nat /\ StronglySorted (fun a b : pred => snd b <= snd a) r /\
      (forall p, In p r -> In (fst p) cn) /\ (NoDup cn -> NoDup (map fst r))).
    { intros r' ->; unfold RecognitionServicePy.predict_fallback; fold cn.
      set (l := combine cn (seeded_dirichlet L img (List.length cn))).
      split; [rewrite length_firstn; lia|split; [apply ss_firstn, sort_desc_sorted|split]].
      - intros p Hp; apply in_firstn_l, sort_desc_in in Hp; destruct p as [c x].
        exact (in_combine_l _ _ _ _ Hp).
      - intros Hnd; apply sorted_results_nodup.
        unfold l; rewrite combine_map_fst; now apply nodup_firstn. }
    destruct (if RecognitionServicePy.model_loaded st then RecognitionServicePy.model st else None)
      as [m|]; [|injection Hr as <-; now apply Hfb].
    destruct (m img) as [v|e]; [|injection Hr as <-; now apply Hfb].
    injection Hr as <-.
    destruct (topk_results (fun i => nth i cn "") (List.length cn) 10 v) as (H1 & _ & H3 & H4).
    split; [exact H1|split; [exact H3|split]].
    + intros p Hp; destruct (H4 p Hp) as (i & Hi & _ & -> & _); now apply nth_In.
    + intros Hnd; apply topk_results_nodup; intros i j Hi Hj; now apply nth_injective.
Qed.

(** The ensemble's [predict] returns at most 10 candidates, in non-increasing
    confidence order, with no class named twice, whether it combines the
    models' predictions or falls back to the seeded Dirichlet draw. *)
Theorem ensemble_predict_ranked (L : Lib) (st : Ensemble.service)
    (outputs : string -> grid -> res (list Q)) (img : grid) :
  let r := Ensemble.predict L st outputs img in
  (List.length r <= 10)%nat /\
  StronglySorted (fun a b : pred => snd b <= snd a) r /\
  NoDup (map fst r).
Proof.
  cbv zeta; unfold Ensemble.predict.
  destruct (_ || _)%bool.
  - unfold Ensemble.predict_fallback; cbv zeta.
    set (names := match Ensemble.dedup (flat_map snd (Ensemble.metadata st)) with
                  | [] => Ensemble.default_classes | _ => Ensemble.dedup (flat_map snd (Ensemble.metadata st)) end).
    assert (Hn : NoDup names).
    { unfold names; destruct (dedup_spec (flat_map snd (Ensemble.metadata st))) as [Hd _].
      destruct (Ensemble.dedup _); [|exact Hd].
      unfold Ensemble.default_classes; repeat constructor; simpl; intuition discriminate. }
    destruct (sorted_results_nodup 10 (combine names (seeded_dirichlet L img (List.length names))))
      as (H1 & H2 & H3); [rewrite combine_map_fst; now apply nodup_firstn|].
    tauto.
  - destruct (sorted_results_nodup 10 (Ensemble.combined_predictions st
                (Ensemble.get_predictions_for_model st (fun m => outputs m img))))
      as (H1 & H2 & H3); [apply combined_predictions_nodup|tauto].
Qed.

Lemma model_step_some (st : Recognition.service) (p : option grid) (rs : list pred) :
  Recognition.model_step st p = Some rs -> exists v, rs = Recognition.model_results st v.
Proof.
  unfold Recognition.model_step.
  destruct (Recognition.model st) as [m|], p as [t|]; try discriminate.
  destruct (arr_max t); [|discriminate]; destruct (m t) as [v|]; [|discriminate].
  destruct (Recognition.model_results st v) eqn:E; [discriminate|].
  intros H; injection H as <-; now exists v.
Qed.

(** recognition.py's [predict] returns its candidates in non-increasing
    confidence order, at most [max(5, top_k)] of them: the model's top 5, the
    fallback list cut to [top_k], or the single error entry. *)
Theorem recognition_predict_ranked (L : Lib) (st : Recognition.service) (input : Recognition.pyinput) :
  let r := top_predictions (Recognition.predict L st input) in
  (List.length r <= Nat.max 5 (Recognition.top_k st))%nat /\
  StronglySorted (fun a b : pred => snd b <= snd a) r.
Proof.
  cbv zeta; unfold Recognition.predict.
  pose proof (Nat.le_max_l 5 (Recognition.top_k st)); pose proof (Nat.le_max_r 5 (Recognition.top_k st)).
  destruct (Recognition.predict_inputs L input) as [[processed f]|e];
    [|cbn [top_predictions List.length]; split; [lia|repeat constructor]].
  destruct (Recognition.model_step st processed) as [rs|] eqn:E; cbn [top_predictions].
  - apply model_step_some in E; destruct E as [v ->].
    destruct (topk_results (fun i => split_underscore_0 (nth i (Recognition.class_names st) ""))
                (List.length (Recognition.class_names st)) 5 v) as (H1 & _ & H3 & _).
    assert (H1v : (List.length (Recognition.model_results st v) <= 5)%nat) by exact H1.
    split; [lia|exact H3].
  - unfold Recognition.fallback_tail; cbv zeta.
    match goal with |- context [firstn (Recognition.top_k st) (sort_desc snd ?l)] =>
      set (ps := firstn (Recognition.top_k st) (sort_desc snd l)) end.
    assert (Hs : StronglySorted (fun a b : pred => snd b <= snd a) ps)
      by apply ss_firstn, sort_desc_sorted.
    assert (Hl : (List.length ps <= Recognition.top_k st)%nat) by (unfold ps; rewrite length_firstn; lia).
    destruct (qltb 0 (sum_conf ps)) eqn:Et; [|split; [exact (Nat.le_trans _ _ _ Hl H0)|exact Hs]].
    apply qltb_true in Et; split; [rewrite length_map; exact (Nat.le_trans _ _ _ Hl H0)|].
    apply (ss_map _ _ _ _ Hs); intros a b Hab; simpl.
    unfold Qdiv; apply Qmult_le_compat_r; [exact Hab|apply Qinv_le_0_compat, Qlt_le_weak, Et].
Qed.

(* ------------------------------------------------------------------------- *)
(** ** [round(x, 2)] and the percentages of [recognize_sketch] *)

Lemma qltb_compat (a a' b b' : Q) : a == a' -> b == b' -> qltb a b = qltb a' b'.
Proof.
  intros Ha Hb; unfold qltb.
  destruct (Qlt_le_dec a b), (Qlt_le_dec a' b'); try reflexivity; exfalso.
  - rewrite Ha, Hb in q; qcontra.
  - rewrite Ha, Hb in q; qcontra.
Qed.

Lemma py_round2_compat (x x' : Q) : x == x' -> py_round2 x = py_round2 x'.
Proof.
  intros H; unfold py_round2.
  assert (Hy : x * 100 == x' * 100) by (rewrite H; reflexivity).
  rewrite (Qfloor_comp _ _ Hy).
  rewrite (qltb_compat (x * 100 - inject_Z (Qfloor (x' * 100))) (x' * 100 - inject_Z (Qfloor (x' * 100)))
             (1 # 2) (1 # 2)) by (try rewrite Hy; reflexivity).
  rewrite (qltb_compat (1 # 2) (1 # 2) (x * 100 - inject_Z (Qfloor (x' * 100)))
             (x' * 100 - inject_Z (Qfloor (x' * 100)))) by (try rewrite Hy; reflexivity).
  reflexivity.
Qed.

Lemma py_round2_spec (x : Q) :
  exists r : Z, py_round2 x = inject_Z r / 100 /\
    x * 100 - (1 # 2) <= inject_Z r /\ inject_Z r <= x * 100 + (1 # 2).
Proof.
  unfold py_round2.
  set (y := x * 100); set (fl := Qfloor y).
  assert (H1 : inject_Z fl <= y) by apply Qfloor_le.
  assert (H2 : y < inject_Z (fl + 1)) by apply Qlt_floor.
  rewrite inject_Z_plus in H2; change (inject_Z 1) with 1 in H2.
  destruct (qltb (y - inject_Z fl) (1 # 2)) eqn:E1.
  - apply qltb_true in E1; exists fl; split; [reflexivity|split; lra].
  - apply qltb_false in E1; destruct (qltb (1 # 2) (y - inject_Z fl)) eqn:E2.
    + apply qltb_true in E2; exists (fl + 1)%Z; split; [reflexivity|].
      rewrite inject_Z_plus; change (inject_Z 1) with 1; split; lra.
    + apply qltb_false in E2; destruct (Z.even fl).
      * exists fl; split; [reflexivity|split; lra].
      * exists (fl + 1)%Z; split; [reflexivity|].
        rewrite inject_Z_plus; change (inject_Z 1) with 1; split; lra.
Qed.

Lemma py_round2_close (x : Q) : x - (1 # 200) <= py_round2 x /\ py_round2 x <= x + (1 # 200).
Proof.
  destruct (py_round2_spec x) as (r & -> & H1 & H2).
  unfold Qdiv; change (/ 100) with (1 # 100); split; lra.
Qed.

Lemma py_round2_mono (x1 x2 : Q) : x1 <= x2 -> py_round2 x1 <= py_round2 x2.
Proof.
  intros H; destruct (Qeq_dec x1 x2) as [E|E];
    [rewrite (py_round2_compat _ _ E); apply Qle_refl|].
  assert (Hlt : x1 < x2) by (apply Qle_lt_or_eq in H; destruct H; [assumption|contradiction]).
  destruct (py_round2_spec x1) as (r1 & -> & A1 & B1).
  destruct (py_round2_spec x2) as (r2 & -> & A2 & B2).
  destruct (Z_le_gt_dec r1 r2) as [Hr|Hr].
  - apply Qmult_le_compat_r; [now rewrite <- Zle_Qle|apply Qinv_le_0_compat; lra].
  - exfalso; assert (Hr' : inject_Z (r2 + 1) <= inject_Z r1) by (rewrite <- Zle_Qle; lia).
    rewrite inject_Z_plus in Hr'; change (inject_Z 1) with 1 in Hr'.
    lra.
Qed.

Lemma py_round2_range (x : Q) : 0 <= x <= 100 -> 0 <= py_round2 x <= 100.
Proof.
  intros [H0 H1].
  destruct (py_round2_spec x) as (r & -> & A & B).
  assert (Hr0 : (0 <= r)%Z).
  { destruct (Z_le_gt_dec 0 r) as [h|h]; [exact h|exfalso].
    assert (inject_Z r <= -1) by (change (-1) with (inject_Z (-1)); rewrite <- Zle_Qle; lia). lra. }
  assert (Hr1 : (r <= 10000)%Z).
  { destruct (Z_le_gt_dec r 10000) as [h|h]; [exact h|exfalso].
    assert (10001 <= inject_Z r) by (change 10001 with (inject_Z 10001); rewrite <- Zle_Qle; lia). lra. }
  rewrite Zle_Qle in Hr0, Hr1; change (inject_Z 0) with 0 in Hr0.
  change (inject_Z 10000) with 10000 in Hr1.
  unfold Qdiv; change (/ 100) with (1 # 100); split; lra.
Qed.

(** When preprocessing and prediction succeed, [recognize_sketch] reports
    success and returns the predictor's candidates in the same order and with
    the same labels, each confidence turned into a percentage within 0.005 of
    [100 * confidence], lying in [0, 100] when the confidence lies in [0, 1];
    a non-increasing list of confidences stays non-increasing. *)
Theorem recognize_sketch_percentages (raw : Type) (pre : raw -> res grid)
    (pr : grid -> res (list pred)) (x : raw) (ps : list pred) :
  (let* g := pre x in pr g) = Ok ps ->
  let out := recognize_sketch raw pre pr x in
  success out = true /\ error out = None /\
  Forall2 (fun q p => fst q = fst p /\
             snd p * 100 - (1 # 200) <= snd q <= snd p * 100 + (1 # 200) /\
             (0 <= snd p <= 1 -> 0 <= snd q <= 100))
          (top_predictions out) ps /\
  (StronglySorted (fun a b : pred => snd b <= snd a) ps ->
   StronglySorted (fun a b : pred => snd b <= snd a) (top_predictions out)).
Proof.
  intros H; cbv zeta; unfold recognize_sketch; rewrite H; simpl.
  split; [reflexivity|split; [reflexivity|split]].
  - clear H; induction ps as [|p ps IH]; simpl; [constructor|constructor; [|exact IH]].
    split; [reflexivity|split; [apply py_round2_close|]].
    intros [H0 H1]; apply py_round2_range; split; lra.
  - intros Hs; apply (ss_map _ _ _ _ Hs); intros a b Hab; simpl.
    apply py_round2_mono; lra.
Qed.

Lemma recognize_sketch_percentages_witness :
  (let* g := (fun _ : unit => Ok [[0]]) tt in (fun _ => Ok [("cat", 7 # 10)]) g)
    = Ok [("cat", 7 # 10)] /\
  success (recognize_sketch unit (fun _ => Ok [[0]]) (fun _ => Ok [("cat", 7 # 10)]) tt) = true.
Proof.
  split; [reflexivity|].
  apply (recognize_sketch_percentages unit (fun _ => Ok [[0]]) (fun _ => Ok [("cat", 7 # 10)])
           tt [("cat", 7 # 10)]); reflexivity.
Defined.

(* ------------------------------------------------------------------------- *)
(** ** Label and data-URI string handling *)

Lemma str_length_app (a b : string) : String.length (a ++ b) = (String.length a + String.length b)%nat.
Proof. induction a as [|c a IH]; simpl; [reflexivity|now rewrite IH]. Qed.

Lemma substring_0_full (s : string) : substring 0 (String.length s) s = s.
Proof. induction s as [|c s IH]; simpl; [reflexivity|now rewrite IH]. Qed.

Lemma substring_app_l (a b : string) (n : nat) :
  substring (String.length a) n (a ++ b) = substring 0 n b.
Proof. induction a as [|c a IH]; simpl; [reflexivity|exact IH]. Qed.

Lemma prefix_app (p s : string) : String.prefix p (p ++ s) = true.
Proof.
  induction p as [|c p IH]; simpl; [now destruct s|].
  destruct (ascii_dec c c); [exact IH|contradiction].
Qed.

Lemma prefix_split (p s : string) :
  String.prefix p s = true -> s = p ++ substring (String.length p) (String.length s - String.length p) s.
Proof.
  revert s; induction p as [|c p IH]; intros s H; simpl.
  - rewrite Nat.sub_0_r; symmetry; apply substring_0_full.
  - destruct s as [|c' s]; [discriminate|]; simpl in H.
    destruct (ascii_dec c c') as [<-|]; [|discriminate].
    simpl; f_equal; now apply IH.
Qed.

Lemma drop_media_type_intro (t p : string) (seen : bool) :
  (forall c, In c (list_ascii_of_string t) -> c <> ";"%char) ->
  (seen = true \/ t <> EmptyString) ->
  RecognitionServicePy.drop_media_type (t ++ ";base64," ++ p) seen = Some p.
Proof.
  revert seen; induction t as [|c t IH]; intros seen Ht Hs; simpl.
  - destruct Hs as [->|Hs]; [|contradiction].
    rewrite Nat.sub_0_r, substring_0_full; now destruct p.
  - assert (Hc : c <> ";"%char) by (apply Ht; now left).
    destruct (Ascii.eqb c ";"%char) eqn:E; [apply Ascii.eqb_eq in E; contradiction|].
    apply IH; [intros d Hd; apply Ht; now right|now left].
Qed.

Lemma drop_media_type_elim (u r : string) (seen : bool) :
  RecognitionServicePy.drop_media_type u seen = Some r ->
  exists t, u = t ++ ";base64," ++ r /\
    (forall c, In c (list_ascii_of_string t) -> c <> ";"%char) /\
    (seen = true \/ t <> EmptyString).
Proof.
  revert seen; induction u as [|c u IH]; intros seen H; simpl in H; [discriminate|].
  destruct (Ascii.eqb c ";"%char) eqn:E.
  - apply Ascii.eqb_eq in E; subst c.
    destruct (seen && String.prefix "base64," u)%bool eqn:E2; [|discriminate].
    apply andb_true_iff in E2; destruct E2 as [-> E2]; injection H as <-.
    exists EmptyString; split; [|split; [intros c []|now left]].
    simpl; f_equal; exact (prefix_split "base64," u E2).
  - destruct (IH true H) as (t & -> & Ht & _).
    exists (String c t); split; [reflexivity|split; [|right; discriminate]].
    intros d [<-|Hd]; [|now apply Ht].
    intros ->; rewrite Ascii.eqb_refl in E; discriminate.
Qed.

(** The data URI clean-up of [preprocess_image] (the [re.sub] of
    [r'^data:image/[^;]+;base64,']): a header "data:image/<type>;base64,"
    with a non-empty type free of ';' is removed and exactly the payload is
    kept; any other string is passed on unchanged. *)
Theorem strip_data_uri_roundtrip (s : string) :
  (forall t p, t <> EmptyString -> (forall c, In c (list_ascii_of_string t) -> c <> ";"%char) ->
     RecognitionServicePy.strip_data_uri ("data:image/" ++ t ++ ";base64," ++ p) = p) /\
  (RecognitionServicePy.strip_data_uri s = s \/
   exists t, t <> EmptyString /\ (forall c, In c (list_ascii_of_string t) -> c <> ";"%char) /\
     s = "data:image/" ++ t ++ ";base64," ++ RecognitionServicePy.strip_data_uri s).
Proof.
  split.
  - intros t p Ht Hc; unfold RecognitionServicePy.strip_data_uri.
    rewrite prefix_app.
    set (X := t ++ ";base64," ++ p).
    pose proof (substring_app_l "data:image/" X (String.length X)) as Hs.
    change (String.length "data:image/") with 11%nat in Hs.
    replace (String.length ("data:image/" ++ X) - 11)%nat with (String.length X)
      by (rewrite str_length_app; simpl; lia).
    rewrite Hs, substring_0_full; unfold X.
    rewrite drop_media_type_intro; [reflexivity|exact Hc|now right].
  - unfold RecognitionServicePy.strip_data_uri at 1 2.
    destruct (String.prefix "data:image/" s) eqn:E; [|now left].
    destruct (RecognitionServicePy.drop_media_type (substring 11 (String.length s - 11) s) false)
      as [r|] eqn:D; [|now left].
    right; apply drop_media_type_elim in D; destruct D as (t & Hu & Ht & [Hf|Hne]); [discriminate|].
    exists t; split; [exact Hne|split; [exact Ht|]].
    rewrite (prefix_split _ _ E) at 1; f_equal; exact Hu.
Qed.

(** [class_name.split('_')[0]] is the longest prefix of the label without '_':
    the label is that prefix followed either by nothing or by '_' and the rest. *)
Theorem split_underscore_0_prefix (s : string) :
  (forall c, In c (list_ascii_of_string (split_underscore_0 s)) -> c <> "_"%char) /\
  (s = split_underscore_0 s \/ exists rest, s = split_underscore_0 s ++ String "_" rest).
Proof.
  induction s as [|c s [IH1 IH2]]; simpl; [split; [intros c []|now left]|].
  destruct (Ascii.eqb c "_"%char) eqn:E.
  - apply Ascii.eqb_eq in E; subst c; split; [intros c []|right; now exists s].
  - split.
    + intros d [<-|Hd]; [|now apply IH1].
      intros ->; rewrite Ascii.eqb_refl in E; discriminate.
    + destruct IH2 as [H|(rest & H)]; [left; congruence|right; exists rest; simpl; congruence].
Qed.

(* ------------------------------------------------------------------------- *)
(** ** Preprocessing: output shape and stroke polarity *)

Lemma paste_shape (canvas blk : grid) (px py : nat) :
  map (@List.length Q) (paste canvas blk px py) = map (@List.length Q) canvas.
Proof.
  unfold paste; rewrite map_map.
  erewrite map_ext with (g := fun p : nat * list Q => List.length (snd p));
    [|intros [r row]; simpl; rewrite length_map, length_combine, length_seq; lia].
  rewrite <- (map_map snd (@List.length Q)); f_equal.
  generalize 0%nat; induction canvas as [|row canvas IH]; intros s; simpl; [reflexivity|].
  now rewrite IH.
Qed.

Lemma zeros_shape (ts : nat) : map (@List.length Q) (zeros ts ts) = repeat ts ts.
Proof. unfold zeros; rewrite map_repeat, repeat_length; reflexivity. Qed.

(** [enhanced_preprocess_image(image, target_size=(ts, ts))], when it returns,
    returns a [ts] x [ts] image whatever the input's size: the blank canvas,
    or the resized crop pasted into a [ts] x [ts] canvas. *)
Theorem enhanced_preprocess_image_shape (L : Lib) (image : image_input) (ts : nat) (g : grid) :
  enhanced_preprocess_image L image ts = Ok g -> map (@List.length Q) g = repeat ts ts.
Proof.
  unfold enhanced_preprocess_image.
  destruct (binarize_step L image) as [binary|e]; [|discriminate]; cbn [bind].
  destruct (match find_contours L binary with [] => _ | _ => _ end) as [|c cs];
    [intros H; injection H as <-; apply zeros_shape|].
  destruct (bounding_rect _) as [[[x y] w] h].
  destruct (if (Z.eqb w 0 || Z.eqb h 0)%bool then _ else _) as [[[x' y'] w'] h'].
  cbv zeta.
  destruct (Nat.ltb 0 _ && Nat.ltb 0 _)%bool.
  - destruct (if Qlt_le_dec 1 _ then _ else _) as [nw nh].
    destruct (Nat.eqb nw 0 || Nat.eqb nh 0)%bool; [discriminate|].
    cbn [bind]; intros H; injection H as <-.
    rewrite shape_map, paste_shape; apply zeros_shape.
  - cbn [bind]; intros H; injection H as <-.
    rewrite shape_map; apply zeros_shape.
Qed.

Lemma enhanced_preprocess_image_shape_witness :
  enhanced_preprocess_image stub_lib (NDArray Float32 [[0; 1]]) 28 = Ok (zeros 28 28) /\
  map (@List.length Q) (zeros 28 28) = repeat 28%nat 28%nat.
Proof.
  split; [vm_compute; reflexivity|].
  apply (enhanced_preprocess_image_shape stub_lib (NDArray Float32 [[0; 1]]) 28).
  vm_compute; reflexivity.
Defined.

Lemma sumQ_acc (l : list Q) (a : Q) : fold_left Qplus l a == a + fold_left Qplus l 0.
Proof.
  revert a; induction l as [|x l IH]; intros a; simpl; [ring|].
  rewrite (IH (a + x)), (IH (0 + x)); ring.
Qed.

Lemma sumQ_flip (l : list Q) :
  fold_left Qplus (map (fun v => 1 - v) l) 0 == q_of_nat (List.length l) - fold_left Qplus l 0.
Proof.
  induction l as [|x l IH]; simpl; [reflexivity|].
  rewrite sumQ_acc, (sumQ_acc l), IH; unfold q_of_nat.
  rewrite Nat2Z.inj_succ, <- Z.add_1_r, inject_Z_plus; change (inject_Z 1) with 1; ring.
Qed.

Lemma inverted_mean (g : grid) :
  qltb (1 # 2) (mean (elems g)) = true -> mean (elems (map (map (fun v => 1 - v)) g)) <= 1 # 2.
Proof.
  intros E; apply qltb_true in E; rewrite elems_map.
  destruct (elems g) as [|x l] eqn:Hl; [discriminate|].
  revert E; unfold mean; rewrite length_map, sumQ_flip.
  assert (Hn : 0 < q_of_nat (List.length (x :: l))).
  { unfold q_of_nat; simpl; rewrite Zpos_P_of_succ_nat, <- Z.add_1_r, inject_Z_plus.
    pose proof (q_of_nat_nonneg (List.length l)); change (inject_Z 1) with 1; lra. }
  set (n := q_of_nat (List.length (x :: l))) in *; set (s := fold_left Qplus (x :: l) 0).
  intros E.
  setoid_replace ((n - s) / n) with (1 - s / n) by (field; intros H; rewrite H in Hn; discriminate).
  lra.
Qed.

Lemma polarity_step (g h : grid) :
  (if qltb (1 # 2) (mean (elems g)) then Ok (map (map (fun v => 1 - v)) g) else Ok g) = Ok h ->
  mean (elems h) <= 1 # 2.
Proof.
  destruct (qltb (1 # 2) (mean (elems g))) eqn:E; intros H; injection H as <-;
    [now apply inverted_mean|now apply qltb_false].
Qed.

(** The basic pipeline of recognition.py ([_basic_preprocess_image]) inverts
    an image whose mean exceeds 0.5, so every image it returns has mean at
    most 0.5 (dark background). *)
Theorem basic_preprocess_image_dark_background (L : Lib) (image : image_input) (g : grid) :
  Recognition.basic_preprocess_image L image = Ok g -> mean (elems g) <= 1 # 2.
Proof.
  unfold Recognition.basic_preprocess_image.
  destruct (match image with NDArray _ _ => _ | PILImage _ => _ end) as [im|e]; [|discriminate].
  cbn [bind]; destruct (arr_max im) as [mx|e]; [|discriminate]; cbn [bind].
  apply polarity_step.
Qed.

Lemma basic_preprocess_image_dark_background_witness :
  let g := map (map (fun v => 1 - v)) (map (map (fun v => v / 255))
             (Recognition.pil_resize stub_lib (map (map to_uint8) [[255]]) 28 28)) in
  Recognition.basic_preprocess_image stub_lib (NDArray UInt8 [[255]]) = Ok g /\
  mean (elems g) <= 1 # 2.
Proof.
  intros g; split; [vm_compute; reflexivity|].
  apply (basic_preprocess_image_dark_background stub_lib (NDArray UInt8 [[255]])).
  vm_compute; reflexivity.
Defined.

(** The [preprocess_image] of recognition_service.py (and of the ensemble
    service, which has the same body) likewise returns only images with mean
    at most 0.5. *)
Theorem service_preprocess_image_dark_background (L : Lib) (x : RecognitionServicePy.raw_input)
    (g : grid) :
  RecognitionServicePy.preprocess_image L x = Ok g -> mean (elems g) <= 1 # 2.
Proof.
  unfold RecognitionServicePy.preprocess_image.
  destruct (match x with RecognitionServicePy.RawStr _ => _ | _ => _ end) as [im|e];
    [|discriminate].
  cbn [bind]; apply polarity_step.
Qed.

Lemma service_preprocess_image_dark_background_witness :
  let g := map (map (fun v => 1 - v)) (map (map (fun v => v / 255))
             (Recognition.pil_resize stub_lib [[255]] 28 28)) in
  RecognitionServicePy.preprocess_image stub_lib (RecognitionServicePy.RawPIL [[255]]) = Ok g /\
  mean (elems g) <= 1 # 2.
Proof.
  intros g; split; [vm_compute; reflexivity|].
  apply (service_preprocess_image_dark_background stub_lib (RecognitionServicePy.RawPIL [[255]])).
  vm_compute; reflexivity.
Defined.

(* ------------------------------------------------------------------------- *)
(** ** Image features: coverage and centroid bounds *)

Lemma in_combine_seq {A : Type} (s i : nat) (x d : A) (l : list A) :
  In (i, x) (combine (seq s (List.length l)) l) ->
  (s <= i)%nat /\ (i - s < List.length l)%nat /\ nth (i - s) l d = x.
Proof.
  revert s; induction l as [|y l IH]; intros s H; simpl in H; [destruct H|].
  destruct H as [H|H].
  - injection H as -> ->; rewrite Nat.sub_diag; simpl; split; [lia|split; [lia|reflexivity]].
  - destruct (IH (S s) H) as (H1 & H2 & H3).
    replace (i - s)%nat with (S (i - S s)) by lia; simpl; split; [lia|split; [lia|exact H3]].
Qed.

Lemma ink_positions_spec (img : grid) (r c : nat) :
  In (r, c) (ink_positions img) ->
  (r < List.length img)%nat /\ (c < List.length (nth r img []))%nat.
Proof.
  unfold ink_positions; intros H; apply in_concat in H; destruct H as (l & Hl & H).
  apply in_map_iff in Hl; destruct Hl as ([r' row] & <- & Hr).
  apply in_map_iff in H; destruct H as ([c' v] & Hc & Hv); injection Hc as -> ->.
  apply filter_In in Hv; destruct Hv as [Hv _].
  apply (in_combine_seq 0 r row []) in Hr; rewrite Nat.sub_0_r in Hr; destruct Hr as (_ & H1 & H2).
  apply (in_combine_seq 0 c v 0) in Hv; rewrite Nat.sub_0_r in Hv; destruct Hv as (_ & H3 & _).
  subst row; split; assumption.
Qed.

Lemma ink_positions_length (img : grid) :
  (List.length (ink_positions img) <= list_sum (map (@List.length Q) img))%nat.
Proof.
  unfold ink_positions; rewrite length_concat, map_map.
  assert (G : forall (F : nat * list Q -> list (nat * nat)),
    (forall r row, (List.length (F (r, row)) <= List.length row)%nat) ->
    forall s, (list_sum (map (fun x => List.length (F x)) (combine (seq s (List.length img)) img))
               <= list_sum (map (@List.length Q) img))%nat).
  { intros F HF; induction img as [|row img IH]; intros s; simpl; [lia|].
    specialize (HF s row); specialize (IH (S s)); lia. }
  apply G; intros r row; rewrite length_map.
  pose proof (filter_length_le (fun '(_, v) => qltb v 240) (combine (seq 0 (List.length row)) row)).
  rewrite length_combine, length_seq, Nat.min_id in H; exact H.
Qed.

Lemma sum_rect (img : grid) (w : nat) :
  Forall (fun row => List.length row = w) img ->
  list_sum (map (@List.length Q) img) = (List.length img * w)%nat.
Proof. induction 1 as [|row img Hr _ IH]; simpl; [reflexivity|]; rewrite Hr, IH; lia. Qed.

Lemma mean_bounds (l : list Q) (a b : Q) :
  l <> [] -> (forall x, In x l -> a <= x <= b) -> a <= mean l <= b.
Proof.
  intros Hne Hb; unfold mean.
  assert (G : q_of_nat (List.length l) * a <= fold_left Qplus l 0 <= q_of_nat (List.length l) * b).
  { clear Hne; induction l as [|x l IH]; [cbn [List.length fold_left]; change (q_of_nat 0) with 0; lra|]; cbn [List.length fold_left].
    rewrite sumQ_acc; unfold q_of_nat in *; rewrite Nat2Z.inj_succ, <- Z.add_1_r, inject_Z_plus.
    change (inject_Z 1) with 1.
    destruct (Hb x (or_introl eq_refl)); destruct IH as [IH1 IH2]; [intros; apply Hb; now right|].
    split; nra. }
  assert (Hn : 0 < q_of_nat (List.length l)).
  { destruct l as [|x l]; [congruence|]; unfold q_of_nat; simpl.
    rewrite Zpos_P_of_succ_nat, <- Z.add_1_r, inject_Z_plus; change (inject_Z 1) with 1.
    pose proof (q_of_nat_nonneg (List.length l)); lra. }
  destruct G as [G1 G2]; split.
  - apply Qle_shift_div_l; [exact Hn|]; lra.
  - apply Qle_shift_div_r; [exact Hn|]; lra.
Qed.

Lemma q_of_nat_lt (a b : nat) : (a < b)%nat -> q_of_nat a <= q_of_nat b - 1.
Proof.
  intros H; unfold q_of_nat.
  assert (E : inject_Z (Z.of_nat a + 1) <= inject_Z (Z.of_nat b)) by (rewrite <- Zle_Qle; lia).
  rewrite inject_Z_plus in E; change (inject_Z 1) with 1 in E; lra.
Qed.

Lemma div_unit (m h : Q) : 0 <= m <= h - 1 -> 0 < h -> 0 <= m / h < 1.
Proof.
  intros [H1 H2] Hh; split.
  - apply Qle_shift_div_l; [exact Hh|lra].
  - apply Qlt_shift_div_r; [exact Hh|lra].
Qed.

Lemma coverage_unit (img : grid) (w : nat) :
  Forall (fun row => List.length row = w) img -> 0 <= coverage img <= 1.
Proof.
  intros Hr; unfold coverage.
  pose proof (ink_positions_length img) as Hn; rewrite (sum_rect img w Hr) in Hn.
  replace (match img with [] => 0%nat | row :: _ => List.length row end) with
    (match img with [] => 0%nat | _ => w end) by (destruct Hr; simpl; congruence).
  set (n := List.length (ink_positions img)) in *.
  assert (Hd : q_of_nat (List.length img) * q_of_nat (match img with [] => 0%nat | _ => w end)
               == q_of_nat (List.length img * w)).
  { unfold q_of_nat; rewrite Nat2Z.inj_mul, inject_Z_mult.
    destruct img; [simpl; ring|reflexivity]. }
  rewrite Hd; destruct (Nat.eq_dec (List.length img * w) 0) as [E|E].
  - assert (n = 0%nat) as -> by lia; rewrite E; change (q_of_nat 0 / q_of_nat 0) with (0 * / 0); rewrite Qmult_0_l; lra.
  - assert (Hp : 0 < q_of_nat (List.length img * w)).
    { unfold q_of_nat; change 0 with (inject_Z 0); rewrite <- Zlt_Qlt; lia. }
    split; [apply Qle_shift_div_l; [exact Hp|]|apply Qle_shift_div_r; [exact Hp|]];
      unfold q_of_nat; rewrite ?Qmult_0_l, ?Qmult_1_l; [change 0 with (inject_Z 0)|];
      rewrite <- Zle_Qle; lia.
Qed.

Lemma centroid_unit (img : grid) (w : nat) :
  Forall (fun row => List.length row = w) img ->
  0 <= fst (calculate_centroid img) < 1 /\ 0 <= snd (calculate_centroid img) < 1.
Proof.
  intros Hr; unfold calculate_centroid.
  pose proof (ink_positions_spec img) as Hs.
  destruct (ink_positions img) as [|p0 ps] eqn:E; [simpl; split; split; lra|].
  set (pos := p0 :: ps) in *.
  assert (Hne : img <> []) by (intros ->; discriminate).
  assert (Hw : forall r c, In (r, c) pos -> (r < List.length img)%nat /\ (c < w)%nat).
  { intros r c Hin; destruct (Hs r c Hin) as [H1 H2]; split; [exact H1|].
    rewrite (proj1 (Forall_forall _ _) Hr _ (nth_In img [] H1)) in H2; exact H2. }
  destruct img as [|row0 img]; [congruence|].
  assert (Hw0 : List.length row0 = w) by (inversion Hr; assumption).
  rewrite Hw0; cbv zeta; cbn [fst snd].
  assert (Hc0 : (0 < w)%nat)
    by (destruct p0 as [r0 c0]; destruct (Hw r0 c0 (or_introl eq_refl)); lia).
  split; apply div_unit.
  - apply mean_bounds; [discriminate|]; intros q Hq; apply in_map_iff in Hq.
    destruct Hq as ([r c] & <- & Hin); destruct (Hw r c Hin) as [H1 _]; simpl fst.
    split; [apply q_of_nat_nonneg|now apply q_of_nat_lt].
  - unfold q_of_nat; change 0 with (inject_Z 0); rewrite <- Zlt_Qlt; simpl; lia.
  - apply mean_bounds; [discriminate|]; intros q Hq; apply in_map_iff in Hq.
    destruct Hq as ([r c] & <- & Hin); destruct (Hw r c Hin) as [_ H2]; simpl snd.
    split; [apply q_of_nat_nonneg|now apply q_of_nat_lt].
  - unfold q_of_nat; change 0 with (inject_Z 0); rewrite <- Zlt_Qlt; lia.
Qed.

(** [analyze_image_content] on a rectangular 2-D array (every row of width
    [w]) either raises (empty array) or reports no error, a coverage in
    [0, 1] and a centroid (y, x) with both coordinates in [0, 1). *)
Theorem analyze_image_content_bounds (L : Lib) (image : grid) (w : nat) (f : features) :
  Forall (fun row => List.length row = w) image ->
  analyze_image_content L image = Ok f ->
  f_error f = None /\
  (exists c, f_coverage f = Some c /\ 0 <= c <= 1) /\
  (exists y x, f_centroid f = Some (y, x) /\ 0 <= y < 1 /\ 0 <= x < 1).
Proof.
  intros Hr; unfold analyze_image_content.
  destruct (arr_max image) as [mx|e]; [|discriminate]; cbn [bind].
  set (img := if Qle_bool mx 1 then _ else _).
  assert (Hr' : Forall (fun row => List.length row = w) img).
  { unfold img; destruct (Qle_bool mx 1); apply Forall_map; (eapply Forall_impl; [|exact Hr]);
      intros row Hrow; simpl; now rewrite length_map. }
  intros H; injection H as <-; simpl.
  split; [reflexivity|split; [exists (coverage img); split; [reflexivity|now apply (coverage_unit img w)]|]].
  destruct (calculate_centroid img) as [y x] eqn:E.
  exists y, x; split; [reflexivity|].
  pose proof (centroid_unit img w Hr') as Hc; rewrite E in Hc; exact Hc.
Qed.

Lemma analyze_image_content_bounds_witness :
  let img := [[255; 0]; [0; 255]] in
  Forall (fun row => List.length row = 2%nat) img /\
  f_error (mk_features None (Some (detect_shape_type stub_lib (map (map to_uint8) img)))
             (Some (coverage (map (map to_uint8) img)))
             (Some (calculate_centroid (map (map to_uint8) img)))) = None.
Proof.
  intros img.
  assert (Hr : Forall (fun row => List.length row = 2%nat) img) by (repeat constructor).
  split; [exact Hr|].
  apply (analyze_image_content_bounds stub_lib img 2 _ Hr).
  vm_compute; reflexivity.
Defined.

(* ------------------------------------------------------------------------- *)
(** ** The feature-based fallback tables *)

(** Every table of [_predict_based_on_features] is a probability distribution
    over distinct labels: five distinct labels with positive scores summing to
    exactly 1 (two, "error" and "unknown", when the features carry an error). *)
Theorem predict_based_on_features_distribution (f : features) :
  let ps := Recognition.predict_based_on_features f in
  sum_conf ps == 1 /\ (forall p, In p ps -> 0 < snd p) /\ NoDup (map fst ps) /\
  List.length ps = (if f_error f then 2 else 5)%nat.
Proof.
  cbv zeta; unfold Recognition.predict_based_on_features.
  destruct (f_error f); [vm_compute; split; [reflexivity|split; [intros p Hp; intuition (subst; reflexivity)|split; [repeat constructor; simpl; intuition discriminate|reflexivity]]]|].
  destruct (match f_centroid f with Some c => c | None => _ end) as [cy cx].
  repeat match goal with |- context [if ?c then _ else _] => destruct c end;
    (split; [vm_compute; reflexivity|split; [|split; [repeat constructor; simpl; intuition discriminate|reflexivity]]]);
    intros p Hp; simpl in Hp; intuition (subst; reflexivity).
Qed.

(* ------------------------------------------------------------------------- *)
(** ** The ensemble's category map *)

Lemma existsb_eqb_cons (c x : string) (l : list string) :
  existsb (String.eqb c) (x :: l) = (String.eqb c x || existsb (String.eqb c) l)%bool.
Proof. reflexivity. Qed.

(** [_setup_category_mapping] maps a class to "specialized" exactly when the
    specialized model's metadata lists it, to "general" when only the general
    model's metadata lists it, and has no entry for any other class; each
    class appears once. *)
Theorem category_model_map_spec (st : Ensemble.service) (c : string) :
  Ensemble.dict_get String.eqb c (Ensemble.category_model_map st) =
    (if existsb (String.eqb c) (Ensemble.class_names_of st "specialized") then Some "specialized"
     else if existsb (String.eqb c) (Ensemble.class_names_of st "general") then Some "general"
     else None) /\
  NoDup (map fst (Ensemble.category_model_map st)).
Proof.
  unfold Ensemble.category_model_map; cbv zeta.
  set (spec := Ensemble.class_names_of st "specialized").
  set (gen := Ensemble.class_names_of st "general").
  set (f1 := fun d c => Ensemble.dict_set String.eqb c "specialized" d).
  set (f2 := fun (d : list (string * string)) c =>
               if existsb (String.eqb c) spec then d else Ensemble.dict_set String.eqb c "general" d).
  split.
  - assert (G1 : forall l d, Ensemble.dict_get String.eqb c (fold_left f1 l d) =
                   if existsb (String.eqb c) l then Some "specialized"
                   else Ensemble.dict_get String.eqb c d).
    { induction l as [|x l IH]; intros d; [reflexivity|]; simpl fold_left.
      rewrite IH, existsb_eqb_cons; unfold f1; rewrite (dict_get_set String.eqb String.eqb_eq).
      destruct (String.eqb c x), (existsb (String.eqb c) l); reflexivity. }
    assert (G2 : forall l d, Ensemble.dict_get String.eqb c (fold_left f2 l d) =
                   if (existsb (String.eqb c) l && negb (existsb (String.eqb c) spec))%bool
                   then Some "general" else Ensemble.dict_get String.eqb c d).
    { induction l as [|x l IH]; intros d; [reflexivity|]; simpl fold_left.
      rewrite IH, existsb_eqb_cons; unfold f2.
      destruct (existsb (String.eqb x) spec) eqn:Ex.
      - destruct (String.eqb c x) eqn:Ecx; simpl; [|reflexivity].
        apply String.eqb_eq in Ecx; subst x; rewrite Ex; simpl.
        now destruct (existsb (String.eqb c) l).
      - rewrite (dict_get_set String.eqb String.eqb_eq).
        destruct (String.eqb c x) eqn:Ecx; simpl; [|reflexivity].
        apply String.eqb_eq in Ecx; subst x; rewrite Ex; now destruct (existsb (String.eqb c) l). }
    rewrite G2, G1.
    destruct (existsb (String.eqb c) spec), (existsb (String.eqb c) gen); reflexivity.
  - apply fold_inv; [intros d x _ Hd; unfold f2; destruct (existsb _ _); [exact Hd|]
                    |apply fold_inv; [intros d x _ Hd; unfold f1|constructor]];
      now apply (dict_set_nodup String.eqb String.eqb_eq).
Qed.

(* ------------------------------------------------------------------------- *)
(** ** Stroke rasterization *)

Lemma normalize_unit (a : grid) :
  elems a <> [] ->
  exists g, normalize_image a 0 1 = Ok g /\ map (@List.length Q) g = map (@List.length Q) a /\
    forall v, In v (elems g) -> 0 <= v <= 1.
Proof.
  intros Hne; destruct (normalize_image_cases a Hne) as (mx & mn & Hmx & Hmn & ->).
  destruct (arr_max_spec a mx Hmx) as [Inmx Lemx].
  destruct (arr_min_spec a mn Hmn) as [Inmn Lemn].
  destruct (Qeq_bool mx mn) eqn:E.
  - eexists; split; [reflexivity|]; unfold zeros_like; rewrite shape_map, elems_map.
    split; [reflexivity|]; intros v Hv; apply in_map_iff in Hv; destruct Hv as (x & <- & _); lra.
  - assert (Hlt : mn < mx).
    { destruct (Qle_lt_or_eq mn mx (Lemx mn Inmn)) as [H|H]; [exact H|].
      exfalso; apply Qeq_bool_neq in E; apply E; now symmetry. }
    eexists; split; [reflexivity|]; rewrite shape_map, elems_map; split; [reflexivity|].
    intros v Hv; apply in_map_iff in Hv; destruct Hv as (x & <- & Hx).
    apply scale_in_unit; auto.
Qed.

Lemma draw_polyline_shape (L : Lib) (img : grid) (pts : list point) (lw : nat) :
  (forall g p q w, map (@List.length Q) (draw_line L g p q w) = map (@List.length Q) g) ->
  map (@List.length Q) (draw_polyline L img pts lw) = map (@List.length Q) img.
Proof.
  intros HL; revert img; induction pts as [|p pts IH]; intros img; [reflexivity|].
  destruct pts as [|q rest]; [reflexivity|].
  change (draw_polyline L img (p :: q :: rest) lw)
    with (draw_polyline L (draw_line L img p q lw) (q :: rest) lw).
  rewrite IH; apply HL.
Qed.

Lemma elems_rect_nonempty (w h : nat) (g : grid) :
  (0 < w)%nat -> (0 < h)%nat -> map (@List.length Q) g = repeat w h -> elems g <> [].
Proof.
  intros Hw Hh; destruct g as [|row g]; [destruct h; [lia|discriminate]|].
  destruct h as [|h]; [lia|]; simpl; intros E; injection E as E _.
  destruct row; [simpl in E; lia|discriminate].
Qed.

(** [preprocess_stroke_data] with a positive target size never raises: when
    drawing a line keeps the canvas size, it returns a [height] x [width]
    array with every value in [0, 1], whatever the strokes. *)
Theorem preprocess_stroke_data_shape (L : Lib) (strokes : list stroke) (width height lw : nat)
    (invert : bool) :
  (forall g p q w, map (@List.length Q) (draw_line L g p q w) = map (@List.length Q) g) ->
  (0 < width)%nat -> (0 < height)%nat ->
  exists g, preprocess_stroke_data L strokes width height lw invert = Ok g /\
    map (@List.length Q) g = repeat width height /\ forall v, In v (elems g) -> 0 <= v <= 1.
Proof.
  intros HL Hw Hh; unfold preprocess_stroke_data.
  set (img := repeat (repeat 255 width) height).
  assert (Himg : map (@List.length Q) img = repeat width height)
    by (unfold img; rewrite map_repeat, repeat_length; reflexivity).
  assert (Fin : forall a, map (@List.length Q) a = repeat width height ->
    exists g, (let a' := if invert then map (map (fun v => 255 - v)) a else a in
               normalize_image a' 0 1) = Ok g /\
              map (@List.length Q) g = repeat width height /\
              forall v, In v (elems g) -> 0 <= v <= 1).
  { intros a Ha; cbv zeta.
    assert (Ha' : map (@List.length Q) (if invert then map (map (fun v => 255 - v)) a else a)
                  = repeat width height) by (destruct invert; [rewrite shape_map|]; exact Ha).
    destruct (normalize_unit _ (elems_rect_nonempty width height _ Hw Hh Ha')) as (g & H1 & H2 & H3).
    exists g; split; [exact H1|split; [congruence|exact H3]]. }
  destruct (points_bbox (all_points strokes)) as [bb|]; apply Fin; [|exact Himg].
  unfold draw_strokes; apply (fold_inv (fun g => map (@List.length Q) g = repeat width height));
    [|exact Himg].
  intros g s _ Hg; destruct (Nat.ltb (List.length s) 2); [exact Hg|].
  rewrite draw_polyline_shape; [exact Hg|exact HL].
Qed.

Lemma preprocess_stroke_data_shape_witness :
  exists g, preprocess_stroke_data stub_lib [[(0, 0); (1, 1)]] 28 28 2 true = Ok g /\
    map (@List.length Q) g = repeat 28%nat 28%nat /\ forall v, In v (elems g) -> 0 <= v <= 1.
Proof.
  apply (preprocess_stroke_data_shape stub_lib [[(0, 0); (1, 1)]] 28 28 2 true);
    [intros; reflexivity|lia|lia].
Defined.

(** A stroke canvas whose strokes are all empty is rasterized to a blank
    (all-zero) 28 x 28 array, and [analyze_image_content] then counts every
    pixel of it as ink: the features carry no error and a coverage of 1. *)
Theorem blank_stroke_canvas_full_coverage (L : Lib) (strokes : list stroke) :
  (forall s, In s strokes -> s = []) ->
  let '(img, f) := Recognition.preprocess_canvas_data L (Recognition.CanvasStrokes strokes) in
  img = zeros_like (map (map (fun v => 255 - v)) (repeat (repeat 255 28) 28)) /\
  f_error f = None /\ exists c, f_coverage f = Some c /\ c == 1.
Proof.
  intros Hs; unfold Recognition.preprocess_canvas_data.
  replace (filter (fun s => negb (Nat.eqb (List.length s) 0)) strokes) with (@nil stroke).
  2:{ induction strokes as [|s strokes IH]; [reflexivity|]; simpl.
      rewrite (Hs s (or_introl eq_refl)); simpl; apply IH; intros t Ht; apply Hs; now right. }
  set (Z0 := zeros_like (map (map (fun v => 255 - v)) (repeat (repeat 255 28) 28))).
  assert (E1 : preprocess_stroke_data L [] 28 28 2 true = Ok Z0).
  { transitivity (preprocess_stroke_data stub_lib [] 28 28 2 true); [reflexivity|].
    vm_compute; reflexivity. }
  rewrite E1; unfold analyze_image_content.
  assert (E2 : arr_max Z0 = Ok 0) by (vm_compute; reflexivity).
  rewrite E2; cbn [bind].
  split; [reflexivity|split; [reflexivity|]].
  eexists; split; [reflexivity|vm_compute; reflexivity].
Qed.

Lemma blank_stroke_canvas_full_coverage_witness :
  (forall s, In s [@nil point; @nil point] -> s = []) /\
  f_error (snd (Recognition.preprocess_canvas_data stub_lib (Recognition.CanvasStrokes [[]; []])))
    = None.
Proof.
  assert (H : forall s, In s [@nil point; @nil point] -> s = [])
    by (intros s [<-|[<-|[]]]; reflexivity).
  split; [exact H|].
  pose proof (blank_stroke_canvas_full_coverage stub_lib [[]; []] H) as W.
  destruct (Recognition.preprocess_canvas_data stub_lib (Recognition.CanvasStrokes [[]; []]))
    as [img f]; simpl; exact (proj1 (proj2 W)).
Defined.

(* ------------------------------------------------------------------------- *)
(** ** Data URLs in [base64_to_image] *)

Lemma after_comma_skip (a s : string) :
  (forall c, In c (list_ascii_of_string a) -> c <> ","%char) ->
  after_comma (a ++ s) = after_comma s.
Proof.
  induction a as [|c a IH]; intros Ha; simpl; [reflexivity|].
  destruct (Ascii.eqb c ","%char) eqn:E;
    [apply Ascii.eqb_eq in E; exfalso; apply (Ha c (or_introl eq_refl)), E|].
  apply IH; intros d Hd; apply Ha; now right.
Qed.

Lemma after_comma_field (p tail : string) :
  (forall c, In c (list_ascii_of_string p) -> c <> ","%char) ->
  (tail = EmptyString \/ exists r, tail = String ","%char r) ->
  after_comma (String ","%char (p ++ tail)) = Some p.
Proof.
  intros Hp Ht; induction p as [|c p IH]; simpl in *.
  - destruct Ht as [->|[r ->]]; reflexivity.
  - destruct (Ascii.eqb c ","%char) eqn:E;
      [apply Ascii.eqb_eq in E; exfalso; apply (Hp c (or_introl eq_refl)), E|].
    assert (IH' := IH (fun d Hd => Hp d (or_intror Hd))); injection IH' as IH'; now rewrite IH'.
Qed.

(** [base64_to_image] decodes a data URL "data:<header>,<payload>" exactly as
    its bare payload (the text up to a further comma, if any), and raises
    IndexError on a "data:" string without a comma. *)
Theorem base64_to_image_data_url (L : Lib) (h p tail : string) :
  (forall c, In c (list_ascii_of_string h) -> c <> ","%char) ->
  (forall c, In c (list_ascii_of_string p) -> c <> ","%char) ->
  String.prefix "data:" p = false ->
  (tail = EmptyString \/ exists r, tail = String ","%char r) ->
  base64_to_image L ("data:" ++ h ++ "," ++ p ++ tail) = base64_to_image L p /\
  base64_to_image L ("data:" ++ h) = Err (PyExc "IndexError" "list index out of range").
Proof.
  intros Hh Hp Hpre Ht.
  assert (Hd : forall c, In c (list_ascii_of_string "data:") -> c <> ","%char)
    by (simpl; intros c Hc; repeat (destruct Hc as [<-|Hc]; [discriminate|]); destruct Hc).
  unfold base64_to_image; rewrite !prefix_app, Hpre; split.
  - rewrite (after_comma_skip "data:" _ Hd), (after_comma_skip h _ Hh).
    change ("," ++ p ++ tail) with (String ","%char (p ++ tail)).
    rewrite (after_comma_field p tail Hp Ht); reflexivity.
  - rewrite (after_comma_skip "data:" _ Hd).
    assert (He : forall a : string, a ++ "" = a) by (induction a; simpl; congruence).
    replace (after_comma h) with (after_comma (h ++ "")) by now rewrite He.
    rewrite (after_comma_skip h _ Hh); reflexivity.
Qed.

Lemma base64_to_image_data_url_witness :
  base64_to_image stub_lib ("data:" ++ "image/png;base64" ++ "," ++ "iVBOR" ++ "") =
    base64_to_image stub_lib "iVBOR".
Proof.
  apply (base64_to_image_data_url stub_lib "image/png;base64" "iVBOR" "");
    [vm_compute; intros c Hc; repeat (destruct Hc as [<-|Hc]; [discriminate|]); destruct Hc
    |vm_compute; intros c Hc; repeat (destruct Hc as [<-|Hc]; [discriminate|]); destruct Hc
    |reflexivity|now left].
Defined.

(* ------------------------------------------------------------------------- *)
(** ** C1: what the recognition services report as confidences *)

(** C1 (amended): [recognize_sketch] (both services) does not renormalize.
    On success it returns the predictor's candidates in order, with the same
    labels, each confidence [c] reported as [round(c * 100, 2)], within 0.005
    of [100 * c]; on failure the single candidate ("error", 100.0).  Without a
    model and with [top_k] at least 1, [predict] of recognition.py returns a
    non-empty list of confidences, each > 0, that sum to 1: the renormalized
    fallback list, or its error response ("error", 1.0). *)
Theorem recognition_confidences_amended (L : Lib) (st : Recognition.service)
    (input : Recognition.pyinput) :
  (0 < Recognition.top_k st)%nat -> Recognition.model st = None ->
  (top_predictions (Recognition.predict L st input) <> [] /\
   (forall p, In p (top_predictions (Recognition.predict L st input)) -> 0 < snd p) /\
   sum_conf (top_predictions (Recognition.predict L st input)) == 1 /\
   (forall e, Recognition.predict_inputs L input = Err e ->
      top_predictions (Recognition.predict L st input) = [("error", 1)])) /\
  (forall (raw : Type) (pre : raw -> res grid) (pr : grid -> res (list pred)) (x : raw),
     (forall preds, (let* g := pre x in pr g) = Ok preds ->
        success (recognize_sketch raw pre pr x) = true /\
        Forall2 (fun q p => fst q = fst p /\
                   snd p * 100 - (1 # 200) <= snd q <= snd p * 100 + (1 # 200))
                (top_predictions (recognize_sketch raw pre pr x)) preds) /\
     (forall e, (let* g := pre x in pr g) = Err e ->
        success (recognize_sketch raw pre pr x) = false /\
        top_predictions (recognize_sketch raw pre pr x) = [("error", 100)])).
Proof.
  intros Hk Hm; destruct (predict_no_model_normalized L st input Hk Hm) as (Hne & Hpos & Hsum).
  split; [split; [exact Hne|split; [exact Hpos|split; [exact Hsum|]]]|].
  - intros e He; unfold Recognition.predict; now rewrite He.
  - intros raw pre pr x; split.
    + intros preds H; unfold recognize_sketch; rewrite H; simpl; split; [reflexivity|].
      clear H; induction preds as [|p ps IH]; simpl; [constructor|constructor; [|exact IH]].
      split; [reflexivity|apply py_round2_close].
    + intros e H; unfold recognize_sketch; rewrite H; split; reflexivity.
Qed.

Lemma recognition_confidences_amended_witness :
  (0 < Recognition.top_k (Recognition.mk_service None [] 5))%nat /\
  Recognition.model (Recognition.mk_service None [] 5) = None /\
  sum_conf (top_predictions (Recognition.predict stub_lib
              (Recognition.mk_service None [] 5) Recognition.InOther)) == 1.
Proof.
  split; [simpl; lia|]; split; [reflexivity|].
  apply (recognition_confidences_amended stub_lib (Recognition.mk_service None [] 5)
           Recognition.InOther); [simpl; lia|reflexivity].
Defined.
